(** * easypy.decorations: helpers for writing decorators

    A shallow embedding of [easypy/decorations.py] together with the parts of
    the Python runtime it leans on ([inspect.Signature], [functools.wraps],
    [functools.partial], [contextlib]'s generator based context managers and
    the descriptor protocol), followed by the properties the module's
    specification states about it.

    Conventions.
    - Python values are terms of [value]; objects that only matter through
      their identity are [VObj cls id].
    - A computation that may raise returns [result A]; code that also reads or
      writes mutable objects passes a store explicitly.
    - User supplied callables (the decorator being adapted, a decorator
      factory, a generator function, a function body) are Rocq functions bound
      in a [Section].
    - Where the module updates an object that user code handed to it, the
      objects live in a store under their identity, so that two names for
      one object see the same update. *)

From stdpp Require Import gmap strings list fin_maps pretty.

#[local] Open Scope string_scope.
#[local] Set Warnings "-register-all".

(** ** Values and exceptions *)

Inductive value : Type :=
| VNone
| VBool (b : bool)
| VInt (z : Z)
| VStr (s : string)
| VAuto
| VTuple (vs : list value)
| VDict (kv : list (string * value))
| VObj (cls : string) (id : N)
| VMethod (func self : value).

#[global] Instance value_eq_dec : EqDecision value.
Proof.
  unfold EqDecision, Decision.
  fix IH 1. intros x y.
  assert (Hl : ∀ l l' : list value, {l = l'} + {l ≠ l'}).
  { fix IHl 1.
    intros [|a l] [|b l']; try (right; discriminate); [left; reflexivity|].
    destruct (IH a b) as [->|Hn]; [|right; congruence].
    destruct (IHl l l') as [->|Hn]; [left; reflexivity|right; congruence]. }
  assert (Hd : ∀ l l' : list (string * value), {l = l'} + {l ≠ l'}).
  { fix IHl 1.
    intros [|[k a] l] [|[k' b] l']; try (right; discriminate);
      [left; reflexivity|].
    destruct (decide (k = k')) as [->|Hn]; [|right; congruence].
    destruct (IH a b) as [->|Hn]; [|right; congruence].
    destruct (IHl l l') as [->|Hn]; [left; reflexivity|right; congruence]. }
  decide equality; solve [apply (decide (_ = _))].
Defined.

(** Modelled from the spec: the [AUTO] sentinel of [easypy.tokens], a module
    that is imported by [decorations.py] but is not part of the sources at
    hand.  It is "a unique marker value used as a parameter default",
    recognised by identity ([is AUTO]); here it is the constructor [VAuto]. *)
Definition AUTO : value := VAuto.

Definition is_AUTO (v : value) : bool :=
  match v with VAuto => true | _ => false end.

Inductive exn : Type :=
| TypeError (msg : string)
| ValueError (msg : string)
| KeyError (key : string)
| AttributeError (msg : string)
| RuntimeError (msg : string)
| StopIteration
| UserError (cls : string) (id : N).

Inductive result (A : Type) : Type :=
| Ok (a : A)
| Raise (e : exn).
Arguments Ok {A} a.
Arguments Raise {A} e.

#[global] Instance result_ret : MRet result := @Ok.
#[global] Instance result_bind : MBind result := λ A B f m,
  match m with Ok a => f a | Raise e => Raise e end.
#[global] Instance result_fmap : FMap result := λ A B f m,
  match m with Ok a => Ok (f a) | Raise e => Raise e end.

(** Keyword dictionaries keep the order in which keys were first set, as
    Python's [dict] does. *)
Definition kwdict : Type := list (string * value).

Fixpoint kw_get (k : string) (d : kwdict) : option value :=
  match d with
  | [] => None
  | (k', v) :: d' => if decide (k = k') then Some v else kw_get k d'
  end.

(** [d[k] = v] *)
Fixpoint kw_set (k : string) (v : value) (d : kwdict) : kwdict :=
  match d with
  | [] => [(k, v)]
  | (k', v') :: d' =>
      if decide (k = k') then (k, v) :: d' else (k', v') :: kw_set k v d'
  end.

(** [d.pop(k)] as an option: the value and the remaining dictionary. *)
Fixpoint kw_pop (k : string) (d : kwdict) : option (value * kwdict) :=
  match d with
  | [] => None
  | (k', v) :: d' =>
      if decide (k = k') then Some (v, d')
      else '(x, r) ← kw_pop k d'; Some (x, (k', v) :: r)
  end.

(** [d.update(e)] *)
Definition kw_update (d e : kwdict) : kwdict :=
  foldl (λ acc kv, kw_set kv.1 kv.2 acc) d e.

(** ** [inspect]: parameters, signatures, argument binding *)

(** The standard library as of Python 3.5, the release [decorations.py]
    mentions.  Error messages that print an enumeration member are
    abridged. *)

Module inspect.

Inductive param_kind : Type :=
| POSITIONAL_ONLY
| POSITIONAL_OR_KEYWORD
| VAR_POSITIONAL
| KEYWORD_ONLY
| VAR_KEYWORD.

#[global] Instance param_kind_eq_dec : EqDecision param_kind.
Proof. solve_decision. Defined.

(** The kinds are an [IntEnum]; [kind_rank] is the integer. *)
Definition kind_rank (k : param_kind) : nat :=
  match k with
  | POSITIONAL_ONLY => 0
  | POSITIONAL_OR_KEYWORD => 1
  | VAR_POSITIONAL => 2
  | KEYWORD_ONLY => 3
  | VAR_KEYWORD => 4
  end.

(** [inspect.Parameter]; a [default] of [None] is [inspect._empty].
    Annotations play no role in this module and are left out. *)
Record Param : Type := mkParam {
  name : string;
  kind : param_kind;
  default : option value
}.

(** [param.replace(default=v)] *)
Definition replace_default (p : Param) (v : value) : Param :=
  {| name := name p; kind := kind p; default := Some v |}.

(** A [Signature] is its ordered parameters. *)
Definition Signature : Type := list Param.

Definition quote (s : string) : string := "'" +:+ s +:+ "'".

(** One round of the checking loop of [Signature.__init__]: [top_kind] and
    [kind_defaults] are the loop's variables, [seen] the names stored so
    far. *)
Definition check_param (top_kind : param_kind) (kind_defaults : bool)
    (seen : gset string) (p : Param)
    : result (param_kind * bool * gset string) :=
  if decide (kind_rank (kind p) < kind_rank top_kind) then
    Raise (ValueError "wrong parameter order")
  else
    let kind_defaults :=
      if decide (kind_rank top_kind < kind_rank (kind p)) then false
      else kind_defaults in
    let top_kind := kind p in
    kd ← (match kind p with
          | POSITIONAL_ONLY | POSITIONAL_OR_KEYWORD =>
              match default p with
              | None =>
                  if kind_defaults then
                    Raise (ValueError
                             "non-default argument follows default argument")
                  else Ok kind_defaults
              | Some _ => Ok true
              end
          | _ => Ok kind_defaults
          end);
    if decide (name p ∈ seen) then
      Raise (ValueError ("duplicate parameter name: " +:+ quote (name p)))
    else Ok (top_kind, kd, {[name p]} ∪ seen).

(** [Signature(parameters)] for parameters that are already at hand. *)
Fixpoint check_params (top_kind : param_kind) (kind_defaults : bool)
    (seen : gset string) (ps : list Param) : result unit :=
  match ps with
  | [] => Ok ()
  | p :: ps' =>
      '(tk, kd, seen') ← check_param top_kind kind_defaults seen p;
      check_params tk kd seen' ps'
  end.

Definition valid_signature (sig : Signature) : Prop :=
  check_params POSITIONAL_ONLY false ∅ sig = Ok ().

(** *** [Signature.bind] *)

Definition missing_argument (n : string) : exn :=
  TypeError ("missing a required argument: " +:+ quote n).

Definition has_key (k : string) (d : kwdict) : bool :=
  bool_decide (is_Some (kw_get k d)).

(** The first loop of [Signature._bind]: positional arguments against the
    leading parameters.  The result is the arguments bound so far and the
    parameters still to be looked at ([parameters_ex] followed by what is
    left of the iterator). *)
Fixpoint bind_positional (params : list Param) (args : list value)
    (kwargs : kwdict) (arguments : gmap string value)
    : result (gmap string value * list Param) :=
  match params with
  | [] =>
      match args with
      | [] => Ok (arguments, [])
      | _ :: _ => Raise (TypeError "too many positional arguments")
      end
  | param :: rest =>
      match args with
      | [] =>
          if decide (kind param = VAR_POSITIONAL) then Ok (arguments, rest)
          else if has_key (name param) kwargs then
            if decide (kind param = POSITIONAL_ONLY) then
              Raise (TypeError (quote (name param) +:+
                " parameter is positional only, but was passed as a keyword"))
            else Ok (arguments, param :: rest)
          else if decide (kind param = VAR_KEYWORD) then
            Ok (arguments, param :: rest)
          else if default param is Some _ then Ok (arguments, param :: rest)
          else Raise (missing_argument (name param))
      | arg_val :: args' =>
          match kind param with
          | VAR_KEYWORD | KEYWORD_ONLY =>
              Raise (TypeError "too many positional arguments")
          | VAR_POSITIONAL =>
              Ok (<[name param := VTuple (arg_val :: args')]> arguments, rest)
          | POSITIONAL_ONLY | POSITIONAL_OR_KEYWORD =>
              if has_key (name param) kwargs then
                Raise (TypeError ("multiple values for argument " +:+
                                  quote (name param)))
              else
                bind_positional rest args' kwargs
                  (<[name param := arg_val]> arguments)
          end
      end
  end.

(** The second loop: keyword arguments against the remaining parameters,
    then the check for keywords nobody took. *)
Fixpoint bind_keywords (params : list Param) (kwargs : kwdict)
    (arguments : gmap string value) (kwargs_param : option Param)
    : result (gmap string value) :=
  match params with
  | [] =>
      match kwargs with
      | [] => Ok arguments
      | (k, _) :: _ =>
          match kwargs_param with
          | Some kp => Ok (<[name kp := VDict kwargs]> arguments)
          | None =>
              Raise (TypeError ("got an unexpected keyword argument " +:+
                                quote k))
          end
      end
  | param :: rest =>
      match kind param with
      | VAR_KEYWORD => bind_keywords rest kwargs arguments (Some param)
      | VAR_POSITIONAL => bind_keywords rest kwargs arguments kwargs_param
      | k =>
          match kw_pop (name param) kwargs with
          | None =>
              if default param is Some _ then
                bind_keywords rest kwargs arguments kwargs_param
              else Raise (missing_argument (name param))
          | Some (arg_val, kwargs') =>
              if decide (k = POSITIONAL_ONLY) then
                Raise (TypeError (quote (name param) +:+
                  " parameter is positional only, but was passed as a keyword"))
              else
                bind_keywords rest kwargs'
                  (<[name param := arg_val]> arguments) kwargs_param
          end
      end
  end.

(** [sig.bind] applied to positional [args] and keyword [kwargs]; the
    result is the [arguments] mapping of the [BoundArguments]. *)
Definition bind (sig : Signature) (args : list value) (kwargs : kwdict)
    : result (gmap string value) :=
  '(arguments, params) ← bind_positional sig args kwargs ∅;
  bind_keywords params kwargs arguments None.

(** [BoundArguments.args].  Under the name of a star-args parameter [bind]
    only ever stores a tuple; anything else cannot be spliced in. *)
Fixpoint bound_args (params : list Param) (arguments : gmap string value)
    : result (list value) :=
  match params with
  | [] => Ok []
  | param :: rest =>
      match kind param with
      | VAR_KEYWORD | KEYWORD_ONLY => Ok []
      | k =>
          match arguments !! name param with
          | None => Ok []
          | Some arg =>
              if decide (k = VAR_POSITIONAL) then
                match arg with
                | VTuple vs => tl ← bound_args rest arguments; Ok ((vs ++ tl)%list)
                | _ => Raise (TypeError "object is not iterable")
                end
              else tl ← bound_args rest arguments; Ok (arg :: tl)
          end
      end
  end.

(** [BoundArguments.kwargs]; [kwargs_started] and [kwargs] are the loop's
    variables. *)
Fixpoint bound_kwargs (params : list Param) (arguments : gmap string value)
    (kwargs_started : bool) (kwargs : kwdict) : result kwdict :=
  match params with
  | [] => Ok kwargs
  | param :: rest =>
      let '(started, skip) :=
        if kwargs_started then (true, false)
        else match kind param with
             | VAR_KEYWORD | KEYWORD_ONLY => (true, false)
             | _ => if arguments !! name param is Some _
                    then (false, true) else (true, true)
             end in
      if skip then bound_kwargs rest arguments started kwargs
      else
        match arguments !! name param with
        | None => bound_kwargs rest arguments started kwargs
        | Some arg =>
            if decide (kind param = VAR_KEYWORD) then
              match arg with
              | VDict kv =>
                  bound_kwargs rest arguments started (kw_update kwargs kv)
              | _ => Raise (TypeError "object is not a mapping")
              end
            else
              bound_kwargs rest arguments started
                (kw_set (name param) arg kwargs)
        end
  end.

(** [BoundArguments.apply_defaults] *)
Fixpoint apply_defaults (params : list Param)
    (arguments : gmap string value) : gmap string value :=
  match params with
  | [] => ∅
  | param :: rest =>
      let tl := apply_defaults rest arguments in
      match arguments !! name param with
      | Some v => <[name param := v]> tl
      | None =>
          match default param, kind param with
          | Some val, _ => <[name param := val]> tl
          | None, VAR_POSITIONAL => <[name param := VTuple []]> tl
          | None, VAR_KEYWORD => <[name param := VDict []]> tl
          | None, _ => tl
          end
      end
  end.

End inspect.

(** ** Computations over a store *)

(** [io S A]: run on a store [S], return or raise, leave a store behind.  An
    exception keeps the writes made before it. *)
Definition io (S A : Type) : Type := S → result A * S.

#[global] Instance io_ret {S} : MRet (io S) := λ A a s, (Ok a, s).
#[global] Instance io_bind {S} : MBind (io S) := λ A B f m s,
  match m s with
  | (Ok a, s') => f a s'
  | (Raise e, s') => (Raise e, s')
  end.

(** ** Function objects and [functools] *)

(** What introspection can see of a function object: the identity attributes
    that [functools.wraps] copies, the parameters its code declares, and its
    [__dict__].  Three [__dict__] entries hold objects rather than plain
    values and have fields of their own: [signature], [__signature__] and
    [__wrapped__]. *)
Inductive funobj : Type := FunObj {
  fn_module : string;
  fn_name : string;
  fn_qualname : string;
  fn_doc : option string;
  fn_params : inspect.Signature;
  fn_dict : gmap string value;
  fn_signature : option inspect.Signature;
  fn_dunder_signature : option inspect.Signature;
  fn_wrapped : option funobj
}.

(** A callable is a function object together with what calling it does. *)
Record callable (Code : Type) : Type := Callable {
  obj : funobj;
  code : Code
}.
Arguments Callable {Code} obj code.
Arguments obj {Code} c.
Arguments code {Code} c.

Module functools.

(** [update_wrapper(wrapper, wrapped)] with the default [assigned] and
    [updated]: copy [__module__], [__name__], [__qualname__] and [__doc__],
    update [wrapper.__dict__] with [wrapped.__dict__], and last set
    [__wrapped__].  ([__annotations__] is copied too; annotations are not
    part of [funobj].) *)
Definition update_wrapper (wrapper wrapped : funobj) : funobj :=
  {| fn_module := fn_module wrapped;
     fn_name := fn_name wrapped;
     fn_qualname := fn_qualname wrapped;
     fn_doc := fn_doc wrapped;
     fn_params := fn_params wrapper;
     fn_dict := fn_dict wrapped ∪ fn_dict wrapper;
     fn_signature :=
       if fn_signature wrapped is Some s then Some s
       else fn_signature wrapper;
     fn_dunder_signature :=
       if fn_dunder_signature wrapped is Some s then Some s
       else fn_dunder_signature wrapper;
     fn_wrapped := Some wrapped |}.

(** [wraps(wrapped)(wrapper)] for a [wrapper] that the module has just
    made with a nested [def] and that nothing else holds yet, as [inner] in
    [mirror_defaults]: the same callable, its function object updated.
    Where the wrapper comes from user code the update is made in a store,
    see [update_wrapper_in_place] below. *)
Definition wraps {C1 C2} (wrapped : callable C1) (wrapper : callable C2)
    : callable C2 :=
  Callable (update_wrapper (obj wrapper) (obj wrapped)) (code wrapper).

(** [partial(func, **keywords)] *)
Record partial (F : Type) : Type := Partial {
  func : F;
  keywords : kwdict
}.
Arguments Partial {F} func keywords.
Arguments func {F} p.
Arguments keywords {F} p.

End functools.

(** [inspect.unwrap] with the [stop] that [inspect.signature] passes: follow
    [__wrapped__] until an object carries [__signature__]. *)
Fixpoint unwrap (f : funobj) : funobj :=
  match fn_dunder_signature f, fn_wrapped f with
  | None, Some g => unwrap g
  | _, _ => f
  end.

(** [inspect.signature(f)] for a function object. *)
Definition signature (f : funobj) : inspect.Signature :=
  let g := unwrap f in
  match fn_dunder_signature g with
  | Some s => s
  | None => fn_params g
  end.

(** The function object of a nested [def inner] before [wraps] touches
    it. *)
Definition inner_obj (qualname : string) (params : inspect.Signature)
    : funobj :=
  {| fn_module := "easypy.decorations";
     fn_name := "inner";
     fn_qualname := qualname;
     fn_doc := None;
     fn_params := params;
     fn_dict := ∅;
     fn_signature := None;
     fn_dunder_signature := None;
     fn_wrapped := None |}.

(** ** Function objects in a store *)

(** [wraps(func)(x)] updates the object [x] in place and hands the same
    object back.  In [parametrizeable_decorator] and [wrapper_decorator]
    that object comes from user code: it may be the target itself, or an
    object that something else still holds.  For these two the function
    objects therefore live in a store, under their identity, and
    [__wrapped__] holds a reference. *)
Record fnobject : Type := FnObject {
  fo_module : string;
  fo_name : string;
  fo_qualname : string;
  fo_doc : option string;
  fo_params : inspect.Signature;
  fo_dict : gmap string value;
  fo_dunder_signature : option inspect.Signature;
  fo_wrapped : option N
}.

(** The store of function objects, by identity. *)
Abbreviation objects := (gmap N fnobject).

(** A callable value: the identity of the object and what calling it
    does. *)
Record fnref (Code : Type) : Type := FnRef {
  addr : N;
  call : Code
}.
Arguments FnRef {Code} addr call.
Arguments addr {Code} f.
Arguments call {Code} f.


(** The function object a [def] statement makes. *)
Definition def_fnobject (module name qualname : string)
    (params : inspect.Signature) : fnobject :=
  {| fo_module := module;
     fo_name := name;
     fo_qualname := qualname;
     fo_doc := None;
     fo_params := params;
     fo_dict := ∅;
     fo_dunder_signature := None;
     fo_wrapped := None |}.

(** What [update_wrapper(wrapper, wrapped)] leaves in [wrapper], where
    [target] is the identity of [wrapped] and [wrapped] its attributes as
    they are when the update starts.  An object outside the store has none
    of the attributes, and [update_wrapper] skips what is missing; the last
    assignment, [__wrapped__], is made either way. *)
Definition updated (wrapper : fnobject) (target : N)
    (wrapped : option fnobject) : fnobject :=
  match wrapped with
  | Some w =>
      {| fo_module := fo_module w;
         fo_name := fo_name w;
         fo_qualname := fo_qualname w;
         fo_doc := fo_doc w;
         fo_params := fo_params wrapper;
         fo_dict := fo_dict w ∪ fo_dict wrapper;
         fo_dunder_signature :=
           if fo_dunder_signature w is Some s then Some s
           else fo_dunder_signature wrapper;
         fo_wrapped := Some target |}
  | None =>
      {| fo_module := fo_module wrapper;
         fo_name := fo_name wrapper;
         fo_qualname := fo_qualname wrapper;
         fo_doc := fo_doc wrapper;
         fo_params := fo_params wrapper;
         fo_dict := fo_dict wrapper;
         fo_dunder_signature := fo_dunder_signature wrapper;
         fo_wrapped := Some target |}
  end.

(** [wraps(wrapped)(wrapper)] on the store: the object at [wrapper] is
    overwritten where it is, every other object stays, and the caller gets
    [wrapper] back.  An object that is not in the store takes no
    attributes. *)
Definition update_wrapper_in_place (wrapper wrapped : N) (h : objects)
    : result objects :=
  match h !! wrapper with
  | None => Raise (AttributeError "object has no attribute '__module__'")
  | Some o => Ok (<[wrapper := updated o wrapped (h !! wrapped)]> h)
  end.

(** What [inspect.unwrap] raises on a wrapper loop; the message goes on
    with the [repr] of the object, which is left out here. *)
Definition wrapper_loop : exn := ValueError "wrapper loop when unwrapping".

(** [inspect.unwrap] with the [stop] that [inspect.signature] passes:
    follow [__wrapped__] until an object carries [__signature__] or has no
    [__wrapped__]; [memo] holds the identities seen, and coming back to one
    of them is a wrapper loop.  [o] is the object the walk stands on.  The
    answer is [None] where the model has none: the walk leaves the store,
    or the [fuel] of the recursion is used up.  [unwrap_at_fuel] shows that
    the size of the store is fuel enough. *)
Fixpoint unwrap_at (h : objects) (fuel : nat) (memo : gset N) (o : fnobject)
    : option (result fnobject) :=
  match fo_dunder_signature o, fo_wrapped o with
  | None, Some a =>
      if decide (a ∈ memo) then Some (Raise wrapper_loop)
      else
        match h !! a with
        | None => None
        | Some o' =>
            match fuel with
            | 0 => None
            | S n => unwrap_at h n ({[a]} ∪ memo) o'
            end
        end
  | _, _ => Some (Ok o)
  end.

(** The signature an unwrapped function object reports. *)
Definition own_signature (o : fnobject) : inspect.Signature :=
  match fo_dunder_signature o with
  | Some s => s
  | None => fo_params o
  end.

(** [inspect.signature(f)] for the function object at [a]. *)
Definition signature_at (h : objects) (a : N)
    : option (result inspect.Signature) :=
  match h !! a with
  | None => None
  | Some o =>
      match unwrap_at h (size h) {[a]} o with
      | Some (Ok g) => Some (Ok (own_signature g))
      | Some (Raise e) => Some (Raise e)
      | None => None
      end
  end.

(** Every [__wrapped__] of the store is a function object of the store. *)
Definition closed (h : objects) : Prop :=
  ∀ a o b, h !! a = Some o → fo_wrapped o = Some b → is_Some (h !! b).

(** ** [parametrizeable_decorator] and [wrapper_decorator] *)

Section adapters.

(** [W] is whatever else the adapted decorator reads and writes; [Code] is
    what calling a target or a decorated function does. *)
Context {W Code : Type}.

(** The store: the function objects, and the rest. *)
Definition store : Type := objects * W.

(** A decorator-construction function: target first, then keyword
    options.  It may make a new function object, change the ones there
    are, and return any of them. *)
Definition deco_fn : Type := fnref Code → kwdict → io store (fnref Code).

(** What [inner] hands back: the decorated callable, or a [partial] that
    still waits for the target. *)
Inductive adapted : Type :=
| Decorated (c : fnref Code)
| Awaiting (p : functools.partial deco_fn).

(** [partial.__call__] with the target as the one positional argument. *)
Definition partial_call (p : functools.partial deco_fn)
    (func : fnref Code) (kwargs : kwdict) : io store (fnref Code) :=
  functools.func p func (kw_update (functools.keywords p) kwargs).

(** [wraps(func)(r)]: update [r] in place and return it. *)
Definition wraps_in_place (func r : fnref Code) : io store (fnref Code) :=
  λ s,
    match update_wrapper_in_place (addr r) (addr func) s.1 with
    | Ok h => (Ok r, (h, s.2))
    | Raise e => (Raise e, s)
    end.

(** A nested [def inner] followed by [wraps(deco)]: a new function object,
    updated from [deco] before anything else can hold it. *)
Definition def_inner {C D} (deco : fnref D) (qualname : string)
    (params : inspect.Signature) (body : C) : io store (fnref C) :=
  λ s,
    let a := fresh (dom s.1) in
    let o := def_fnobject "easypy.decorations" "inner" qualname params in
    (Ok (FnRef a body),
     (<[a := updated o (addr deco) (s.1 !! addr deco)]> s.1, s.2)).

Section with_deco.
Variable deco : fnref deco_fn.

(** [inner(func=None, **kwargs)] of [parametrizeable_decorator]. *)
Definition parametrizeable_decorator_inner
    (func : option (fnref Code)) (kwargs : kwdict) : io store adapted :=
  match func with
  | None => mret (Awaiting (functools.Partial (call deco) kwargs))
  | Some func =>
      r ← call deco func kwargs;
      r' ← wraps_in_place func r;
      mret (Decorated r')
  end.

Definition parametrizeable_decorator
    : io store (fnref (option (fnref Code) → kwdict → io store adapted)) :=
  def_inner deco "parametrizeable_decorator.<locals>.inner"
    [inspect.mkParam "func" inspect.POSITIONAL_OR_KEYWORD (Some VNone);
     inspect.mkParam "kwargs" inspect.VAR_KEYWORD None]
    parametrizeable_decorator_inner.
End with_deco.

Section with_plain_deco.
Variable deco : fnref (fnref Code → io store (fnref Code)).


End with_plain_deco.

End adapters.

(** ** Context managers *)

(** What [__exit__] is told: [None] stands for the three [None]s of a clean
    exit, [Some e] for an exception in flight. *)
Definition exc_info : Type := option exn.

#[global] Instance exn_eq_dec : EqDecision exn.
Proof. solve_decision. Defined.

(** Truth value of what [__exit__] returned. *)
Definition truthy (v : value) : bool :=
  match v with
  | VNone => false
  | VBool b => b
  | VInt z => negb (bool_decide (z = 0%Z))
  | VStr s => negb (bool_decide (s = ""))
  | VTuple vs => negb (bool_decide (vs = []))
  | VDict kv => negb (bool_decide (kv = []))
  | VAuto | VObj _ _ | VMethod _ _ => true
  end.

(** The context manager protocol.  A manager is mutable, so both methods run
    on the pair of the manager and the store [W] around it. *)
Class ContextManager (W CM : Type) : Type := {
  __enter__ : io (CM * W) value;
  __exit__ : exc_info → io (CM * W) value
}.

(** [with cm as x: body x].  [Some a] when the block ran to its end, [None]
    when it raised and [__exit__] swallowed the exception. *)
Definition with_stmt {W CM A} `{!ContextManager W CM}
    (body : value → io W A) : io (CM * W) (option A) :=
  λ s,
    match __enter__ s with
    | (Raise e, s1) => (Raise e, s1)
    | (Ok x, (cm, w)) =>
        match body x w with
        | (Ok a, w') =>
            match __exit__ None (cm, w') with
            | (Ok _, s2) => (Ok (Some a), s2)
            | (Raise e, s2) => (Raise e, s2)
            end
        | (Raise e, w') =>
            match __exit__ (Some e) (cm, w') with
            | (Ok r, s2) => if truthy r then (Ok None, s2) else (Raise e, s2)
            | (Raise e', s2) => (Raise e', s2)
            end
        end
    end.

Module contextlib.
Section contextlib.

Context {W : Type}.

(** A generator object is what resuming it does: [next(gen)] resumes with
  [None], [gen.throw(e)] with [Some e].  The body then yields, returns or
  raises.  [GenDone] is a generator that has finished. *)
Inductive generator : Type :=
| GenDone
| GenSusp (resume : option exn → W → gen_step)
with gen_step : Type :=
| Yield (v : value) (g : generator) (w : W)
| Return (w : W)
| Throw (e : exn) (w : W).

Inductive gen_outcome : Type :=
| Yielded (v : value)
| Returned
| Raised (e : exn).

Definition resume_gen (g : generator) (sent : option exn) (w : W)
  : gen_outcome * generator * W :=
match g with
| GenDone =>
    (match sent with Some e => Raised e | None => Returned end, GenDone, w)
| GenSusp resume =>
    match resume sent w with
    | Yield v g' w' => (Yielded v, g', w')
    | Return w' => (Returned, GenDone, w')
    | Throw e w' => (Raised e, GenDone, w')
    end
end.

(** Calling a generator function binds the arguments and builds the
  generator; no line of the body runs. *)
Definition genfunc : Type := list value → kwdict → result generator.

(** [contextlib._GeneratorContextManager] as of Python 3.5, the release the
  module is written against. *)
Record GeneratorContextManager : Type := mkGCM {
gen : generator;
func : genfunc;
args : list value;
kwds : kwdict
}.

(** [_GeneratorContextManager(func, args, kwds)] *)
Definition GeneratorContextManager_init (func : genfunc)
  (args : list value) (kwds : kwdict) : result GeneratorContextManager :=
g ← func args kwds;
mret (mkGCM g func args kwds).

(** [self._recreate_cm()] *)
Definition _recreate_cm (self : GeneratorContextManager)
  : result GeneratorContextManager :=
GeneratorContextManager_init (func self) (args self) (kwds self).

Definition set_gen (self : GeneratorContextManager) (g : generator)
  : GeneratorContextManager :=
mkGCM g (func self) (args self) (kwds self).

Definition gcm_enter : io (GeneratorContextManager * W) value :=
λ '(self, w),
  match resume_gen (gen self) None w with
  | (Yielded v, g, w') => (Ok v, (set_gen self g, w'))
  | (Returned, g, w') =>
      (Raise (RuntimeError "generator didn't yield"), (set_gen self g, w'))
  | (Raised e, g, w') => (Raise e, (set_gen self g, w'))
  end.

(** An exception [exc] that comes back out of [throw] is compared with the
  one sent in by identity.  A [RuntimeError] is re-raised either way: its
  [__cause__] is the sent exception only after a conversion of
  [StopIteration] that generators of this release do not perform. *)
Definition gcm_exit (info : exc_info)
  : io (GeneratorContextManager * W) value :=
λ '(self, w),
  match info with
  | None =>
      match resume_gen (gen self) None w with
      | (Returned, g, w') => (Ok VNone, (set_gen self g, w'))
      | (Yielded _, g, w') =>
          (Raise (RuntimeError "generator didn't stop"),
           (set_gen self g, w'))
      | (Raised e, g, w') => (Raise e, (set_gen self g, w'))
      end
  | Some value =>
      match resume_gen (gen self) (Some value) w with
      | (Yielded _, g, w') =>
          (Raise (RuntimeError "generator didn't stop after throw()"),
           (set_gen self g, w'))
      | (Returned, g, w') => (Ok (VBool true), (set_gen self g, w'))
      | (Raised exc, g, w') =>
          match exc with
          | StopIteration =>
              (Ok (VBool (negb (bool_decide (exc = value)))),
               (set_gen self g, w'))
          | RuntimeError _ => (Raise exc, (set_gen self g, w'))
          | _ =>
              if decide (exc = value)
              then (Ok VNone, (set_gen self g, w'))
              else (Raise exc, (set_gen self g, w'))
          end
      end
  end.

#[global] Instance gcm_context_manager
  : ContextManager W GeneratorContextManager :=
{| __enter__ := gcm_enter; __exit__ := gcm_exit |}.

End contextlib.
End contextlib.

(** ** [reusable_contextmanager] *)

(** [getattr(cm, '_recreate_cm')] when the attribute is there.  The managers
    of interest build a new object on every call. *)
Class Recreatable (CM : Type) : Type :=
  recreate_cm : CM → option (result CM).

#[global] Instance gcm_recreatable {W}
    : Recreatable (@contextlib.GeneratorContextManager W) :=
  λ cm, Some (contextlib._recreate_cm cm).

Section reusable.

Context {W CM : Type} `{!ContextManager W CM} `{!Recreatable CM}.

Definition hasattr_recreate_cm (context_manager : CM) : bool :=
  bool_decide (is_Some (recreate_cm context_manager)).

(** An instance of the local class [ReusableCtx]: the [context_manager] its
    methods close over and its one attribute [cm], unset until the first
    [__enter__]. *)
Record ReusableCtx : Type := mkReusableCtx {
  context_manager : CM;
  cm : option CM
}.

Definition ReusableCtx_enter : io (ReusableCtx * W) value :=
  λ '(self, w),
    match recreate_cm (context_manager self) with
    | None =>
        (Raise (AttributeError "object has no attribute '_recreate_cm'"),
         (self, w))
    | Some (Raise e) => (Raise e, (self, w))
    | Some (Ok fresh) =>
        let '(r, (fresh', w')) := __enter__ (fresh, w) in
        (r, (mkReusableCtx (context_manager self) (Some fresh'), w'))
    end.

Definition ReusableCtx_exit (info : exc_info)
    : io (ReusableCtx * W) value :=
  λ '(self, w),
    match cm self with
    | None =>
        (Raise (AttributeError
                  "'ReusableCtx' object has no attribute 'cm'"),
         (self, w))
    | Some c =>
        let '(r, (c', w')) := __exit__ info (c, w) in
        (_ ← r; Ok VNone, (mkReusableCtx (context_manager self) (Some c'), w'))
    end.

#[global] Instance ReusableCtx_context_manager
    : ContextManager W ReusableCtx :=
  {| __enter__ := ReusableCtx_enter; __exit__ := ReusableCtx_exit |}.

(** The input itself when it has no [_recreate_cm], a new [ReusableCtx]
    otherwise. *)
Definition reusable_contextmanager (context_manager : CM)
    : CM + ReusableCtx :=
  if negb (hasattr_recreate_cm context_manager) then inl context_manager
  else inr (mkReusableCtx context_manager None).

End reusable.

(** ** Descriptors that decorate lazily *)

(** [type(x)] as ['%s'] prints it. *)
Definition class_repr (cls : string) : string := "<class '" +:+ cls +:+ "'>".

Section descriptors.

(** [U] is whatever else user code can reach besides instance
    dictionaries. *)
Context {U : Type}.

(** The store user code runs on: the [__dict__] of every instance that has
    one, by object identity, and the rest. *)
Record world : Type := World {
  dicts : gmap N (gmap string value);
  user : U
}.

(** A decorator takes the bound method and returns the decorated object; a
    decorator factory takes the instance and returns a decorator. *)
Definition decorator : Type := value → io world value.
Definition factory : Type := value → io world decorator.

(** A record of the calls into user code, kept next to the store and out of
    user code's reach. *)
Inductive event : Type :=
| FactoryCalled (instance : value)
| DecoratorCalled (method : value).

#[global] Instance event_eq_dec : EqDecision event.
Proof. solve_decision. Defined.

Definition traced : Type := list event * world.

Definition call_user {A} (ev : event) (m : io world A) : io traced A :=
  λ '(log, w), let '(r, w') := m w in (r, ((log ++ [ev])%list, w')).

Definition is_factory_call (ev : event) : bool :=
  match ev with FactoryCalled _ => true | DecoratorCalled _ => false end.

(** How often the decorator factory has been invoked. *)
Definition factory_calls (s : traced) : nat :=
  length (filter (λ ev, is_factory_call ev = true) s.1).

(** [instance.__dict__]: the identity of the instance and its dictionary. *)
Definition instance_dict (instance : value) (w : world)
    : result (N * gmap string value) :=
  match instance with
  | VObj cls id =>
      match dicts w !! id with
      | Some d => Ok (id, d)
      | None =>
          Raise (AttributeError
                   ("'" +:+ cls +:+ "'" +:+ " object has no attribute '__dict__'"))
      end
  | _ => Raise (AttributeError "object has no attribute '__dict__'")
  end.

(** [function.__get__(instance, owner)]: the function itself off the class,
    a bound method off an instance. *)
Definition function_get (func instance owner : value) : value :=
  match instance with
  | VNone => func
  | _ => VMethod func instance
  end.

(** [DecoratingDescriptor]: [_func], [_cached] and the private
    [__property_name].  [update_wrapper(self, func, updated=())] copies the
    identity attributes of [func] onto the descriptor; no read goes through
    them. *)
Record DecoratingDescriptor : Type := mkDecoratingDescriptor {
  _func : value;
  _cached : bool;
  __property_name : string
}.

(** [__init__]; [id] is [id(self)]. *)
Definition DecoratingDescriptor_init (id : N) (func : value) (cached : bool)
    : DecoratingDescriptor :=
  {| _func := func;
     _cached := cached;
     __property_name := "__property_" +:+ pretty id |}.

Section get.
(** The abstract method. *)
Variable _decorate : value → value → value → io traced value.

Definition DecoratingDescriptor_get (self : DecoratingDescriptor)
    (instance owner : value) : io traced value :=
  let method := function_get (_func self) instance owner in
  match instance with
  | VNone => mret method
  | _ =>
      if _cached self then
        λ s,
          match instance_dict instance s.2 with
          | Raise e => (Raise e, s)
          | Ok (_, d) =>
              match d !! __property_name self with
              | Some v => (Ok v, s)
              | None =>
                  match _decorate method instance owner s with
                  | (Raise e, s') => (Raise e, s')
                  | (Ok bound, (log, w)) =>
                      match instance_dict instance w with
                      | Raise e => (Raise e, (log, w))
                      | Ok (id, d') =>
                          (Ok bound,
                           (log,
                            World
                              (<[id := <[__property_name self := bound]> d']>
                                 (dicts w))
                              (user w)))
                      end
                  end
              end
          end
      else _decorate method instance owner
  end.
End get.

Record LazyDecoratorDescriptor : Type := mkLazyDecoratorDescriptor {
  base : DecoratingDescriptor;
  decorator_factory : factory
}.

Definition LazyDecoratorDescriptor_init (id : N)
    (decorator_factory : factory) (func : value) (cached : bool)
    : LazyDecoratorDescriptor :=
  {| base := DecoratingDescriptor_init id func cached;
     decorator_factory := decorator_factory |}.

Definition LazyDecoratorDescriptor_decorate (self : LazyDecoratorDescriptor)
    (method instance owner : value) : io traced value :=
  decorator ← call_user (FactoryCalled instance)
                (decorator_factory self instance);
  call_user (DecoratorCalled method) (decorator method).

(** [descriptor.__get__(instance, owner)] for a [LazyDecoratorDescriptor]. *)
Definition LazyDecoratorDescriptor_get (self : LazyDecoratorDescriptor)
    (instance owner : value) : io traced value :=
  DecoratingDescriptor_get (LazyDecoratorDescriptor_decorate self)
    (base self) instance owner.

(** What [lazy_decorator] can tell about its first argument: what calling
    it does when [callable] holds, the string when it is an instance of
    [str], and its class. *)
Record pyobject : Type := PyObject {
  as_callable : option factory;
  as_str : option string;
  class_of : string
}.

Definition callable_ (x : pyobject) : bool :=
  bool_decide (is_Some (as_callable x)).
Definition isinstance_str (x : pyobject) : bool :=
  bool_decide (is_Some (as_str x)).

(** [getattr(instance, name)] as the decorator it finds; attribute lookup
    is the interpreter's. *)
Variable getattr : value → string → io world decorator.

(** [operator.attrgetter(name)] *)
Definition attrgetter (name : string) : factory :=
  λ instance, getattr instance name.

(** [lazy_decorator(decorator_factory, cached)]: the [wrapper] it returns.
    [wrapper] builds a new descriptor object; its first argument is the
    identity the runtime gives that object. *)
Definition lazy_decorator (decorator_factory : pyobject) (cached : bool)
    : result (N → value → LazyDecoratorDescriptor) :=
  factory ←
    (match as_callable decorator_factory with
     | Some f => Ok f
     | None =>
         match as_str decorator_factory with
         | Some name => Ok (attrgetter name)
         | None =>
             Raise (TypeError
                      ("decorator_factory must be callable or string, not "
                       +:+ class_repr (class_of decorator_factory)))
         end
     end);
  Ok (λ id func, LazyDecoratorDescriptor_init id factory func cached).

(** [n] reads of the attribute through [instance], one after the other;
    the results in order. *)
Fixpoint reads (self : LazyDecoratorDescriptor) (instance owner : value)
    (n : nat) (s : traced) : list (result value) * traced :=
  match n with
  | 0 => ([], s)
  | S n' =>
      let '(r, s') := LazyDecoratorDescriptor_get self instance owner s in
      let '(rs, s'') := reads self instance owner n' s' in
      (r :: rs, s'')
  end.

End descriptors.

(** ** [mirror_defaults] *)

Section mirror_defaults.

(** [R] is what running a function body gives. *)
Context {R : Type}.

(** Calling a function: positional and keyword arguments in, a binding
    error or the body's outcome out. *)
Definition fn_code : Type := list value → kwdict → result R.

(** The interpreter's call of a [def] function with parameters [params]:
    bind the arguments, fill in the defaults, run [body] on the locals. *)
Definition call_def (params : inspect.Signature)
    (body : gmap string value → R) : fn_code :=
  λ args kwargs,
    arguments ← inspect.bind params args kwargs;
    Ok (body (inspect.apply_defaults params arguments)).

Variable mirrored : funobj.

(** The dictionary comprehension over [inspect.signature(mirrored)]. *)
Definition defaults : gmap string value :=
  foldl (λ d p, match inspect.default p with
                | Some v => <[inspect.name p := v]> d
                | None => d
                end)
    ∅ (signature mirrored).

(** One turn of the loop in [new_params_generator]: what is yielded for
    [param], and [defaults_to_override] afterwards. *)
Definition new_params_generator (param : inspect.Param)
    (defaults_to_override : gset string)
    : result (inspect.Param * gset string) :=
  if (if inspect.default param is Some v then is_AUTO v else false) then
    match defaults !! inspect.name param with
    | None =>
        Raise (TypeError (fn_name mirrored +:+ " has no default value for "
                          +:+ inspect.name param))
    | Some default_value =>
        Ok (inspect.replace_default param default_value,
            {[inspect.name param]} ∪ defaults_to_override)
    end
  else Ok (param, defaults_to_override).

(** [orig_signature.replace(parameters=new_parameters)]: the constructor of
    [Signature] draws the parameters from the generator one by one and
    checks each as it comes. *)
Fixpoint replace_parameters (params : list inspect.Param)
    (defaults_to_override : gset string) (top_kind : inspect.param_kind)
    (kind_defaults : bool) (seen : gset string)
    : result (inspect.Signature * gset string) :=
  match params with
  | [] => Ok ([], defaults_to_override)
  | param :: rest =>
      '(p, dto) ← new_params_generator param defaults_to_override;
      '(tk, kd, seen') ← inspect.check_param top_kind kind_defaults seen p;
      '(ps, dto') ← replace_parameters rest dto tk kd seen';
      Ok (p :: ps, dto')
  end.

(** The [for] loop of [inner]: [names] are the elements of
    [defaults_to_override - binding.arguments.keys()]. *)
Fixpoint inject_defaults (names : list string)
    (arguments : gmap string value) : result (gmap string value) :=
  match names with
  | [] => Ok arguments
  | name :: names' =>
      match defaults !! name with
      | None => Raise (KeyError name)
      | Some v => inject_defaults names' (<[name := v]> arguments)
      end
  end.

Definition inner (func : fn_code) (new_signature : inspect.Signature)
    (defaults_to_override : gset string) : fn_code :=
  λ args kwargs,
    arguments ← inspect.bind new_signature args kwargs;
    arguments ← inject_defaults
                  (elements (defaults_to_override ∖ dom arguments))
                  arguments;
    binding_args ← inspect.bound_args new_signature arguments;
    binding_kwargs ← inspect.bound_kwargs new_signature arguments false [];
    func binding_args binding_kwargs.

(** [inner.signature = new_signature] *)
Definition set_signature (f : funobj) (sig : inspect.Signature) : funobj :=
  {| fn_module := fn_module f;
     fn_name := fn_name f;
     fn_qualname := fn_qualname f;
     fn_doc := fn_doc f;
     fn_params := fn_params f;
     fn_dict := fn_dict f;
     fn_signature := Some sig;
     fn_dunder_signature := fn_dunder_signature f;
     fn_wrapped := fn_wrapped f |}.

Definition outer (func : callable fn_code) : result (callable fn_code) :=
  let orig_signature := signature (obj func) in
  '(new_signature, defaults_to_override) ←
    replace_parameters orig_signature ∅ inspect.POSITIONAL_ONLY false ∅;
  let wrapped :=
    functools.wraps func
      (Callable
         (inner_obj "mirror_defaults.<locals>.outer.<locals>.inner"
            [inspect.mkParam "args" inspect.VAR_POSITIONAL None;
             inspect.mkParam "kwargs" inspect.VAR_KEYWORD None])
         (inner (code func) new_signature defaults_to_override)) in
  Ok (Callable (set_signature (obj wrapped) new_signature) (code wrapped)).

End mirror_defaults.

(** [mirror_defaults(mirrored)] is the decorator [outer]. *)
Definition mirror_defaults {R} (mirrored : funobj)
    : callable (@fn_code R) → result (callable (@fn_code R)) :=
  outer mirrored.

(** A plain [def] function object. *)
Definition def_obj (name : string) (params : inspect.Signature) : funobj :=
  {| fn_module := "__main__";
     fn_name := name;
     fn_qualname := name;
     fn_doc := None;
     fn_params := params;
     fn_dict := ∅;
     fn_signature := None;
     fn_dunder_signature := None;
     fn_wrapped := None |}.

Definition def_function {R} (name : string) (params : inspect.Signature)
    (body : gmap string value → R) : callable (@fn_code R) :=
  Callable (def_obj name params) (call_def params body).

(** The two functions of the docstring of [mirror_defaults]. *)
Definition pk (n : string) (d : value) : inspect.Param :=
  inspect.mkParam n inspect.POSITIONAL_OR_KEYWORD (Some d).

Definition foo_params : inspect.Signature :=
  [pk "a" (VInt 1); pk "b" (VInt 2); pk "c" (VInt 3)].
Definition bar_params : inspect.Signature :=
  [pk "a" AUTO; pk "b" (VInt 4); pk "c" AUTO].

Definition foo : funobj := def_obj "foo" foo_params.
Definition bar {R} (body : gmap string value → R) : callable (@fn_code R) :=
  def_function "bar" bar_params body.


(** ** Examples used to exercise the definitions *)

(** A class based manager without [_recreate_cm]: it counts how often it was
    entered. *)
Record Counter : Type := mkCounter { entered : nat }.

#[global] Instance Counter_context_manager {W} : ContextManager W Counter :=
  {| __enter__ := λ '(self, w), (Ok VNone, (mkCounter (S (entered self)), w));
     __exit__ := λ _ s, (Ok VNone, s) |}.

#[global] Instance Counter_recreatable : Recreatable Counter := λ _, None.

(** A generator function in the shape [contextmanager] expects; the store
    counts acquisitions:
    [[
      def acquire():
          store += 1
          yield store
    ]] *)
Definition acquire_gen : @contextlib.generator nat :=
  contextlib.GenSusp (λ sent w,
    match sent with
    | Some e => contextlib.Throw e w
    | None =>
        contextlib.Yield (VInt (Z.of_nat (S w)))
          (contextlib.GenSusp (λ sent' w',
             match sent' with
             | Some e => contextlib.Throw e w'
             | None => contextlib.Return w'
             end))
          (S w)
    end).

Definition acquire : @contextlib.genfunc nat := λ _ _, Ok acquire_gen.

(** A generator function that swallows whatever the block raises:
    [[
      def swallow():
          try:
              yield
          except:
              pass
    ]] *)
Definition swallow_gen : @contextlib.generator unit :=
  contextlib.GenSusp (λ sent w,
    match sent with
    | Some e => contextlib.Throw e w
    | None =>
        contextlib.Yield VNone
          (contextlib.GenSusp (λ _ w', contextlib.Return w')) w
    end).

Definition swallow : @contextlib.genfunc unit := λ _ _, Ok swallow_gen.

(** The contract [contextmanager] asks of a generator function: a generator
    it builds yields when first resumed, whatever the store, and returns when
    resumed again without an exception. *)
Definition yields_once {W} (func : @contextlib.genfunc W)
    (args : list value) (kwds : kwdict) : Prop :=
  ∃ resume,
    func args kwds = Ok (contextlib.GenSusp resume)
    ∧ ∀ w, ∃ v g w1,
        resume None w = contextlib.Yield v g w1
        ∧ ∀ w2, ∃ g' w3,
            contextlib.resume_gen g None w2 = (contextlib.Returned, g', w3).

(** A block that runs to its end. *)
Definition total_body {W A} (f : value → W → A * W) : value → io W A :=
  λ x w, let '(a, w') := f x w in (Ok a, w').

(** A decorator factory whose decorator makes a new object on every call;
    the store's [user] part numbers the objects made so far. *)
Definition numbering_factory : @factory N :=
  λ instance w,
    (Ok (λ method w',
           (Ok (VObj "decorated" (user w')),
            World (dicts w') (N.succ (user w')))),
     w).

(** A parameter whose default is the [AUTO] sentinel. *)
Definition marked_AUTO (p : inspect.Param) : bool :=
  if inspect.default p is Some v then is_AUTO v else false.

(** No parameter of the signature has [AUTO] for a default. *)
Definition no_AUTO (sig : inspect.Signature) : Prop :=
  Forall (λ p, marked_AUTO p = false) sig.

(** [q] is [p] with an [AUTO] default replaced by the default that
    [mirrored] has for the same name. *)
Definition mirrors (mirrored : funobj) (p q : inspect.Param) : Prop :=
  inspect.name q = inspect.name p
  ∧ inspect.kind q = inspect.kind p
  ∧ inspect.default q =
      if marked_AUTO p then defaults mirrored !! inspect.name p
      else inspect.default p.

(** Keyword arguments as a caller writes them: [k=v] when [o] is [Some v],
    nothing otherwise. *)
Definition kw (k : string) (o : option value) : kwdict :=
  match o with Some v => [(k, v)] | None => [] end.

(** ** Further vocabulary for the properties *)

(** The names of the parameters whose default is [AUTO]. *)
Definition overridden (sig : inspect.Signature) : gset string :=
  list_to_set (inspect.name <$> filter (λ p, marked_AUTO p = true) sig).

(** What a parameter is bound to once a call went through [inner]: the
    caller's value, else the mirrored default when the parameter is marked
    [AUTO], else the parameter's own default. *)
Definition resolve (mirrored : funobj) (arguments : gmap string value)
    (p : inspect.Param) : option value :=
  match arguments !! inspect.name p with
  | Some v => Some v
  | None =>
      if marked_AUTO p then defaults mirrored !! inspect.name p
      else inspect.default p
  end.

Fixpoint resolved_locals (mirrored : funobj) (arguments : gmap string value)
    (params : list inspect.Param) : gmap string value :=
  match params with
  | [] => ∅
  | p :: rest =>
      let tl := resolved_locals mirrored arguments rest in
      match resolve mirrored arguments p with
      | Some v => <[inspect.name p := v]> tl
      | None => tl
      end
  end.

(** A signature of plain parameters that all have a default, as in
    [def bar(a=AUTO, b=4, c=AUTO)]. *)
Definition all_optional (sig : inspect.Signature) : Prop :=
  Forall (λ p, inspect.kind p = inspect.POSITIONAL_OR_KEYWORD
               ∧ is_Some (inspect.default p)) sig.

(** How [BoundArguments] splits bound values over plain parameters: the
    values of the leading run of bound parameters go by position
    ([leading]), the rest go by keyword ([bound_pairs] of what follows the
    run). *)
Fixpoint leading (arguments : gmap string value) (params : list inspect.Param)
    : list value * list inspect.Param :=
  match params with
  | [] => ([], [])
  | p :: rest =>
      match arguments !! inspect.name p with
      | Some v => let '(vs, r) := leading arguments rest in (v :: vs, r)
      | None => ([], p :: rest)
      end
  end.

Definition bound_pairs (arguments : gmap string value)
    (params : list inspect.Param) : kwdict :=
  omap (λ p, (λ v, (inspect.name p, v)) <$> arguments !! inspect.name p) params.

Definition plain (params : list inspect.Param) : Prop :=
  Forall (λ p, inspect.kind p = inspect.POSITIONAL_OR_KEYWORD) params.

(** The function objects of the examples: the target, a plain function of
    one parameter, and four decorator-construction functions. *)
Definition example_objects : objects :=
  <[1%N := def_fnobject "__main__" "target" "target" [pk "x" (VInt 0)]]>
  (<[2%N := def_fnobject "__main__" "counting_deco" "counting_deco"
             [inspect.mkParam "func" inspect.POSITIONAL_OR_KEYWORD None;
              inspect.mkParam "kwargs" inspect.VAR_KEYWORD None]]>
  (<[3%N := def_fnobject "__main__" "register" "register"
             [inspect.mkParam "func" inspect.POSITIONAL_OR_KEYWORD None;
              inspect.mkParam "kwargs" inspect.VAR_KEYWORD None]]>
  (<[4%N := def_fnobject "__main__" "twice" "twice"
             [inspect.mkParam "func" inspect.POSITIONAL_OR_KEYWORD None]]>
  (<[5%N := def_fnobject "__main__" "keep" "keep"
             [inspect.mkParam "func" inspect.POSITIONAL_OR_KEYWORD None]]>
   ∅)))).

Definition target : fnref nat := FnRef 1%N 40.

(** [def counting_deco(func, **kwargs)]: makes a new function object named
    [wrapper] whose code is the target's code plus the number of options it
    was given. *)
Definition counting_deco : fnref (@deco_fn unit nat) :=
  FnRef 2%N
    (λ func kwargs s,
       let a := fresh (dom s.1) in
       (Ok (FnRef a (call func + length kwargs)),
        (<[a := def_fnobject "__main__" "wrapper"
                  "counting_deco.<locals>.wrapper" []]> s.1, s.2))).




(** A decorator factory that always fails. *)
Definition failing_factory : @factory unit :=
  λ instance w, (Raise (UserError "Unavailable" 1), w).

Section read_traces.

Context {U : Type}.

(** The descriptors of a program by identity, [desc], and its instances by
    identity, of class [cls]; a read is a pair of the two.  [read_all] is a
    sequence of reads, one after the other. *)
Fixpoint read_all (desc : N → @LazyDecoratorDescriptor U) (cls : N → string)
    (owner : value) (trace : list (N * N)) (s : @traced U)
    : list (result value) * @traced U :=
  match trace with
  | [] => ([], s)
  | t :: trace' =>
      let '(r, s') :=
        LazyDecoratorDescriptor_get (desc t.1) (VObj (cls t.2) t.2) owner s in
      let '(rs, s'') := read_all desc cls owner trace' s' in
      (r :: rs, s'')
  end.

(** User code that returns and leaves every instance dictionary as it was:
    the factory, and the decorator it hands out. *)
Definition keeps_dicts (fac : @factory U) : Prop :=
  ∀ instance w, ∃ dcr w1,
    fac instance w = (Ok dcr, w1)
    ∧ dicts w1 = dicts w
    ∧ ∀ method w', ∃ v w2, dcr method w' = (Ok v, w2) ∧ dicts w2 = dicts w'.

(** What the instance dictionaries hold for the pairs in [univ]: an entry
    under the descriptor's key for the pairs in [seen], none for the
    others. *)
Definition cache_state (fn : N → value) (seen univ : gset (N * N))
    (s : @traced U) : Prop :=
  ∀ id oid, (id, oid) ∈ univ →
    ∃ d, dicts s.2 !! oid = Some d
         ∧ ((id, oid) ∈ seen →
            is_Some (d !! __property_name
                            (DecoratingDescriptor_init id (fn id) true)))
         ∧ ((id, oid) ∉ seen →
            d !! __property_name
                   (DecoratingDescriptor_init id (fn id) true) = None).

(** User code that leaves the caches alone: every instance dictionary is
    still there afterwards, with the same entry, or none, under the key of
    every descriptor.  Whatever else it holds may change. *)
Definition same_cache (w w1 : @world U) : Prop :=
  ∀ oid d, dicts w !! oid = Some d →
    ∃ d1, dicts w1 !! oid = Some d1
          ∧ ∀ id func cached,
              d1 !! __property_name (DecoratingDescriptor_init id func cached)
              = d !! __property_name (DecoratingDescriptor_init id func cached).

(** A decorator factory that returns and leaves the caches alone, and whose
    decorator does too. *)
Definition keeps_cache (fac : @factory U) : Prop :=
  ∀ instance w, ∃ dcr w1,
    fac instance w = (Ok dcr, w1)
    ∧ same_cache w w1
    ∧ ∀ method w', ∃ v w2, dcr method w' = (Ok v, w2) ∧ same_cache w' w2.

(** What the instance dictionaries hold for the pairs in [univ]: under the
    descriptor's key, what [stored] has for the pair, and no entry where
    [stored] has none. *)
Definition cache_holds (fn : N → value) (stored : gmap (N * N) value)
    (univ : gset (N * N)) (s : @traced U) : Prop :=
  ∀ id oid, (id, oid) ∈ univ →
    ∃ d, dicts s.2 !! oid = Some d
         ∧ d !! __property_name (DecoratingDescriptor_init id (fn id) true)
           = stored !! (id, oid).

End read_traces.

(** The class [ReusableCtx] defines [__enter__] and [__exit__] and nothing
    else: its instances have no [_recreate_cm]. *)
#[global] Instance ReusableCtx_recreatable {CM : Type}
    : Recreatable (@ReusableCtx CM) := λ _, None.

(** * Properties *)

(** ** The decorator adapters *)

Lemma kw_update_nil (d : kwdict) : kw_update d [] = d.
Proof. reflexivity. Qed.

(** The walk along [__wrapped__] ends before the fuel does: every step
    adds to [memo] an identity of the store that was not in it. *)
Lemma unwrap_at_fuel (h : objects) (fuel : nat) (memo : gset N) a o :
  closed h →
  h !! a = Some o →
  (size (dom h ∖ memo) ≤ fuel)%nat →
  is_Some (unwrap_at h fuel memo o).
Proof.
  intros Hclosed. revert memo a o.
  induction fuel as [|n IH]; intros memo a0 o Ho Hsz; cbn.
  - destruct (fo_dunder_signature o); [done|].
    destruct (fo_wrapped o) as [a|] eqn:Hw; [|done].
    destruct (decide (a ∈ memo)) as [|Hnew]; [done|].
    destruct (Hclosed a0 o a Ho Hw) as [o' Ha]. rewrite Ha.
    exfalso.
    assert (Hin : a ∈ dom h ∖ memo).
    { apply elem_of_difference. split; [by apply elem_of_dom|done]. }
    assert (Hz : size (dom h ∖ memo) = 0) by lia.
    apply size_empty_inv in Hz. by apply Hz in Hin.
  - destruct (fo_dunder_signature o); [done|].
    destruct (fo_wrapped o) as [a|] eqn:Hw; [|done].
    destruct (decide (a ∈ memo)) as [|Hnew]; [done|].
    destruct (Hclosed a0 o a Ho Hw) as [o' Ha]. rewrite Ha.
    apply (IH _ a); [done|].
    assert (Hin : a ∈ dom h ∖ memo).
    { apply elem_of_difference. split; [by apply elem_of_dom|done]. }
    assert (Hlt : (size (dom h ∖ ({[a]} ∪ memo)) < size (dom h ∖ memo))%nat).
    { apply subset_size. split.
      - intros x. rewrite !elem_of_difference, elem_of_union. tauto.
      - intros Hsub. apply Hsub in Hin.
        apply elem_of_difference in Hin as [_ Hin].
        apply Hin, elem_of_union. left. by apply elem_of_singleton. }
    lia.
Qed.

(** [inspect.signature] returns or raises for every function object of a
    closed store. *)
Lemma signature_at_total (h : objects) a :
  closed h → is_Some (h !! a) → is_Some (signature_at h a).
Proof.
  intros Hclosed [o Ha]. unfold signature_at. rewrite Ha.
  destruct (unwrap_at_fuel h (size h) {[a]} a o Hclosed Ha) as [r Hr].
  { rewrite <- (size_dom (D := gset N) h). apply subseteq_size.
    intros x. rewrite elem_of_difference. tauto. }
  rewrite Hr. by destruct r.
Qed.

(** [update_wrapper] from a function object of the store keeps the store
    closed. *)
Lemma update_wrapper_in_place_closed (h h' : objects) wrapper wrapped :
  closed h →
  is_Some (h !! wrapped) →
  update_wrapper_in_place wrapper wrapped h = Ok h' →
  closed h'.
Proof.
  intros Hclosed [ow Hwd]. unfold update_wrapper_in_place.
  destruct (h !! wrapper) as [o|] eqn:Hwr; [|done]. intros [= <-].
  assert (Hin : ∀ b, is_Some (h !! b) →
                     is_Some (<[wrapper := updated o wrapped (h !! wrapped)]> h
                                !! b)).
  { intros b [ob Hb]. destruct (decide (b = wrapper)) as [->|Hne].
    - rewrite lookup_insert_eq. by eexists.
    - rewrite lookup_insert_ne by done. by eexists. }
  intros a oa b Ha Hw. apply Hin.
  destruct (decide (a = wrapper)) as [->|Hne].
  - rewrite lookup_insert_eq in Ha. injection Ha as <-.
    rewrite Hwd in Hw. cbn in Hw. injection Hw as <-. by eexists.
  - rewrite lookup_insert_ne in Ha by done. by apply (Hclosed a oa b).
Qed.



Section adapters_facts.

Context {W Code : Type}.
Implicit Types (deco : fnref (@deco_fn W Code)) (f r : fnref Code).
Implicit Types (h : objects) (w : W) (s : @store W).







End adapters_facts.



(** ** [reusable_contextmanager] *)

Section reusable_facts.

Context {W CM : Type} `{!ContextManager W CM} `{!Recreatable CM}.

(** C8.  A manager without the attribute [_recreate_cm] comes back as it
    is: the very object, not a [ReusableCtx] around it. *)
Theorem reusable_contextmanager_already_reusable (context_manager : CM) :
  recreate_cm context_manager = None →
  reusable_contextmanager context_manager = inl context_manager.
Proof.
  intros Hno. unfold reusable_contextmanager, hasattr_recreate_cm.
  rewrite Hno. rewrite bool_decide_eq_false_2; [done|].
  by intros [? ?].
Qed.

(** And with the attribute, a new proxy that has not been entered yet. *)
Lemma reusable_contextmanager_wraps (context_manager : CM) :
  is_Some (recreate_cm context_manager) →
  reusable_contextmanager context_manager =
    inr (mkReusableCtx context_manager None).
Proof.
  intros Hyes. unfold reusable_contextmanager, hasattr_recreate_cm.
  by rewrite bool_decide_eq_true_2.
Qed.

Lemma enter_proxy (s : ReusableCtx * W) : __enter__ s = ReusableCtx_enter s.
Proof. reflexivity. Qed.

Lemma exit_proxy info (s : ReusableCtx * W) :
  __exit__ info s = ReusableCtx_exit info s.
Proof. reflexivity. Qed.

Lemma ReusableCtx_exit_entered info (self : ReusableCtx) c (w : W) :
  cm self = Some c →
  ReusableCtx_exit info (self, w) =
    let '(r, (c', w')) := __exit__ info (c, w) in
    (_ ← r; Ok VNone, (mkReusableCtx (context_manager self) (Some c'), w')).
Proof. intros Hc. unfold ReusableCtx_exit. by rewrite Hc. Qed.

End reusable_facts.

Lemma reusable_contextmanager_already_reusable_witness :
  recreate_cm (mkCounter 2) = None
  ∧ reusable_contextmanager (mkCounter 2) = inl (mkCounter 2).
Proof.
  split; [reflexivity|].
  apply (reusable_contextmanager_already_reusable (mkCounter 2)).
  reflexivity.
Defined.

Section generator_managers.

Context {W : Type}.
Implicit Types (func : @contextlib.genfunc W) (w : W).

#[local] Abbreviation GCM := (@contextlib.GeneratorContextManager W).

Lemma resume_gen_returned (g g' : @contextlib.generator W) sent w w' :
  contextlib.resume_gen g sent w = (contextlib.Returned, g', w') →
  g' = contextlib.GenDone.
Proof.
  unfold contextlib.resume_gen. destruct g as [|rs].
  - destruct sent; congruence.
  - destruct (rs sent w); congruence.
Qed.

Lemma recreate_cm_fresh func args kwds (cm0 : GCM) g :
  contextlib.GeneratorContextManager_init func args kwds = Ok cm0 →
  recreate_cm (contextlib.set_gen cm0 g) = Some (Ok cm0).
Proof.
  unfold contextlib.GeneratorContextManager_init. intros Hinit.
  destruct (func args kwds) as [g0|e] eqn:Hg; [|discriminate].
  cbn in Hinit. injection Hinit as <-.
  unfold recreate_cm, gcm_recreatable, contextlib._recreate_cm,
    contextlib.GeneratorContextManager_init. cbn.
  by rewrite Hg.
Qed.

(** Whatever state the captured manager and the proxy are in, [__enter__]
    of the proxy is [__enter__] of a manager as [__init__] builds it. *)
Lemma ReusableCtx_enter_fresh func args kwds (cm0 : GCM) g previous w :
  contextlib.GeneratorContextManager_init func args kwds = Ok cm0 →
  ReusableCtx_enter (mkReusableCtx (contextlib.set_gen cm0 g) previous, w) =
    let '(r, (c, w')) := contextlib.gcm_enter (cm0, w) in
    (r, (mkReusableCtx (contextlib.set_gen cm0 g) (Some c), w')).
Proof.
  intros Hinit. unfold ReusableCtx_enter. cbn [context_manager].
  by rewrite (recreate_cm_fresh _ _ _ _ _ Hinit).
Qed.

Lemma set_gen_gen (cm0 : GCM) : contextlib.set_gen cm0 (contextlib.gen cm0) = cm0.
Proof. by destruct cm0. Qed.

(** One clean cycle on a manager as built: it succeeds and leaves the
    generator finished. *)
Lemma gcm_cycle func args kwds (cm0 : GCM) :
  contextlib.GeneratorContextManager_init func args kwds = Ok cm0 →
  yields_once func args kwds →
  ∀ A (b : value → W → A * W) w, ∃ x c1 w1 a w2 w3,
    contextlib.gcm_enter (cm0, w) = (Ok x, (c1, w1))
    ∧ b x w1 = (a, w2)
    ∧ contextlib.gcm_exit None (c1, w2) =
        (Ok VNone, (contextlib.set_gen cm0 contextlib.GenDone, w3)).
Proof.
  intros Hinit (resume & Hg & Hres) A b w.
  unfold contextlib.GeneratorContextManager_init in Hinit.
  rewrite Hg in Hinit. cbn in Hinit. injection Hinit as <-.
  destruct (Hres w) as (v & g & w1 & Hy & Hret).
  destruct (b v w1) as [a w2] eqn:Hb.
  destruct (Hret w2) as (g' & w3 & Hr).
  exists v, (contextlib.mkGCM g func args kwds), w1, a, w2, w3.
  split; [|split; [done|]].
  - unfold contextlib.gcm_enter. cbn. by rewrite Hy.
  - unfold contextlib.gcm_exit. cbn. rewrite Hr.
    by rewrite (resume_gen_returned _ _ _ _ _ Hr).
Qed.

(** C5.  For a manager [cm0] as [contextmanager] builds it from a generator
    function that keeps its contract: [reusable_contextmanager] returns a
    proxy; every [__enter__] of the proxy, whatever an earlier cycle left in
    the proxy and whatever state the captured manager's own generator is in,
    enters a manager as [__init__] builds it and keeps that one for the
    exit; two [with] blocks over the proxy in sequence both run to their
    end; two [with] blocks over [cm0] itself do not, the second fails in
    [__enter__] because the generator is spent. *)
Theorem reusable_contextmanager_cycles func args kwds (cm0 : GCM) :
  contextlib.GeneratorContextManager_init func args kwds = Ok cm0 →
  yields_once func args kwds →
  ∃ proxy,
    reusable_contextmanager cm0 = inr proxy
    ∧ (∀ g previous w,
         ReusableCtx_enter
           (mkReusableCtx (contextlib.set_gen cm0 g) previous, w) =
         let '(r, (c, w')) := contextlib.gcm_enter (cm0, w) in
         (r, (mkReusableCtx (contextlib.set_gen cm0 g) (Some c), w')))
    ∧ (∀ A (b1 b2 : value → W → A * W) w, ∃ a1 p1 w1 a2 p2 w2,
         with_stmt (total_body b1) (proxy, w) = (Ok (Some a1), (p1, w1))
         ∧ with_stmt (total_body b2) (p1, w1) = (Ok (Some a2), (p2, w2)))
    ∧ (∀ A (b1 b2 : value → W → A * W) w, ∃ a1 c1 w1 s2,
         with_stmt (total_body b1) (cm0, w) = (Ok (Some a1), (c1, w1))
         ∧ with_stmt (total_body b2) (c1, w1) =
             (Raise (RuntimeError "generator didn't yield"), s2)).
Proof.
  intros Hinit Honce.
  exists (mkReusableCtx cm0 None). split; [|split; [|split]].
  - apply reusable_contextmanager_wraps. by eexists.
  - intros g previous w. by apply (ReusableCtx_enter_fresh func args kwds).
  - assert (Hcycle : ∀ A (b : value → W → A * W) previous w, ∃ a w3,
        with_stmt (total_body b) (mkReusableCtx cm0 previous, w) =
          (Ok (Some a),
           (mkReusableCtx cm0
              (Some (contextlib.set_gen cm0 contextlib.GenDone)), w3))).
    { intros A b previous w.
      destruct (gcm_cycle _ _ _ _ Hinit Honce A b w)
        as (x & c1 & w1 & a & w2 & w3 & Hen & Hb & Hex).
      exists a, w3. unfold with_stmt.
      pose proof (ReusableCtx_enter_fresh func args kwds cm0
                    (contextlib.gen cm0) previous w Hinit) as He.
      rewrite set_gen_gen in He. rewrite enter_proxy, He, Hen.
      cbv beta iota zeta. unfold total_body. rewrite Hb.
      rewrite exit_proxy, (ReusableCtx_exit_entered _ _ c1); [|done].
      change (__exit__ None (c1, w2)) with (contextlib.gcm_exit None (c1, w2)).
      by rewrite Hex. }
    intros A b1 b2 w.
    destruct (Hcycle A b1 None w) as (a1 & w1 & H1).
    destruct (Hcycle A b2
                (Some (contextlib.set_gen cm0 contextlib.GenDone)) w1)
      as (a2 & w2 & H2).
    by eexists a1, _, w1, a2, _, w2.
  - intros A b1 b2 w.
    destruct (gcm_cycle _ _ _ _ Hinit Honce A b1 w)
      as (x & c1 & w1 & a & w2 & w3 & Hen & Hb & Hex).
    exists a, (contextlib.set_gen cm0 contextlib.GenDone), w3.
    eexists. split.
    + unfold with_stmt. cbn [__enter__ __exit__ contextlib.gcm_context_manager].
      rewrite Hen. unfold total_body. rewrite Hb. by rewrite Hex.
    + unfold with_stmt. cbn. reflexivity.
Qed.

End generator_managers.

Lemma acquire_yields_once : yields_once acquire [] [].
Proof.
  eexists. split; [reflexivity|].
  intros w. eexists _, _, _. split; [reflexivity|].
  intros w2. by eexists _, _.
Defined.

Lemma reusable_contextmanager_cycles_witness :
  let cm0 := contextlib.mkGCM acquire_gen acquire [] [] in
  contextlib.GeneratorContextManager_init acquire [] [] = Ok cm0
  ∧ yields_once acquire [] []
  ∧ ∃ proxy,
      reusable_contextmanager cm0 = inr proxy
      ∧ ∃ a1 p1 w1 a2 p2 w2,
          with_stmt (total_body (λ x w, (x, w))) (proxy, 0) =
            (Ok (Some a1), (p1, w1))
          ∧ with_stmt (total_body (λ x w, (x, w))) (p1, w1) =
              (Ok (Some a2), (p2, w2)).
Proof.
  intros cm0. split; [reflexivity|]. split; [exact acquire_yields_once|].
  destruct (reusable_contextmanager_cycles acquire [] [] cm0 eq_refl
              acquire_yields_once) as (proxy & Hp & _ & Hc & _).
  exists proxy. split; [exact Hp|].
  exact (Hc value (λ x w, (x, w)) (λ x w, (x, w)) 0).
Defined.

Section reusable_exit.

Context {W CM : Type} `{!ContextManager W CM} `{!Recreatable CM}.

(** Whenever [__exit__] of the proxy returns at all, it returns [None]. *)
Lemma ReusableCtx_exit_None info (s s' : ReusableCtx * W) r :
  ReusableCtx_exit info s = (Ok r, s') → r = VNone.
Proof.
  destruct s as [self w]. unfold ReusableCtx_exit.
  destruct (cm self) as [c|]; [|discriminate].
  destruct (__exit__ info (c, w)) as [[r0|e] [c' w']]; cbn; congruence.
Qed.

(** C10.  Let the proxy hold the manager [c] it entered, and let [c]'s
    [__exit__] return [r] for the exception information [info], whatever
    [r] is.  Then the proxy's [__exit__] returns [None], having passed
    [info] on and kept [c]'s new state.  So when a [with] block over the
    proxy raises [e], the statement raises [e], also when [r] is true and
    asks for [e] to be swallowed. *)
Theorem ReusableCtx_exit_discards_result (self : ReusableCtx) (c c' : CM)
    (info : exc_info) (w w' : W) (r : value) :
  cm self = Some c →
  __exit__ info (c, w) = (Ok r, (c', w')) →
  ReusableCtx_exit info (self, w) =
    (Ok VNone, (mkReusableCtx (context_manager self) (Some c'), w'))
  ∧ ∀ A (body : value → io W A) (s0 : ReusableCtx * W) x w0 e,
      info = Some e →
      __enter__ s0 = (Ok x, (self, w0)) →
      body x w0 = (Raise e, w) →
      with_stmt body s0 =
        (Raise e, (mkReusableCtx (context_manager self) (Some c'), w')).
Proof.
  intros Hc Hexit.
  assert (Hproxy : ReusableCtx_exit info (self, w) =
            (Ok VNone, (mkReusableCtx (context_manager self) (Some c'), w'))).
  { rewrite (ReusableCtx_exit_entered _ _ c) by done. by rewrite Hexit. }
  split; [exact Hproxy|].
  intros A body s0 x w0 e -> Henter Hbody.
  unfold with_stmt. rewrite Henter, Hbody, exit_proxy, Hproxy. reflexivity.
Qed.

End reusable_exit.

(** The manager built from [swallow] swallows an exception raised in its
    block; the proxy around it lets the same exception through. *)
Lemma swallow_contrast :
  let cm0 := contextlib.mkGCM swallow_gen swallow [] [] in
  let boom := UserError "Boom" 1 in
  let body : value → io unit value := λ _ w, (Raise boom, w) in
  (with_stmt body (cm0, ())).1 = Ok None
  ∧ (with_stmt body (mkReusableCtx cm0 None, ())).1 = Raise boom.
Proof. split; reflexivity. Qed.

Lemma ReusableCtx_exit_discards_result_witness :
  let cm0 := contextlib.mkGCM swallow_gen swallow [] [] in
  let boom := UserError "Boom" 1 in
  let body : value → io unit value := λ _ w, (Raise boom, w) in
  ∃ self c c',
    cm self = Some c
    ∧ __exit__ (Some boom) (c, ()) = (Ok (VBool true), (c', ()))
    ∧ ReusableCtx_exit (Some boom) (self, ()) =
        (Ok VNone, (mkReusableCtx cm0 (Some c'), ()))
    ∧ with_stmt body (mkReusableCtx cm0 None, ()) =
        (Raise boom, (mkReusableCtx cm0 (Some c'), ())).
Proof.
  intros cm0 boom body.
  set (c := contextlib.mkGCM
              (contextlib.GenSusp (λ _ w', contextlib.Return w'))
              swallow [] []).
  set (c' := contextlib.mkGCM contextlib.GenDone swallow [] []).
  exists (mkReusableCtx cm0 (Some c)), c, c'.
  assert (Hc : cm (mkReusableCtx cm0 (Some c)) = Some c) by reflexivity.
  assert (Hr : __exit__ (Some boom) (c, ()) = (Ok (VBool true), (c', ())))
    by reflexivity.
  destruct (ReusableCtx_exit_discards_result
              (mkReusableCtx cm0 (Some c)) c c' (Some boom) () ()
              (VBool true) Hc Hr) as [Hexit Hwith].
  split; [exact Hc|]. split; [exact Hr|]. split; [exact Hexit|].
  exact (Hwith value body (mkReusableCtx cm0 None, ()) VNone () boom
           eq_refl eq_refl eq_refl).
Defined.

(** ** Lazy decoration *)

Section descriptor_facts.

Context {U : Type}.
Implicit Types (self : @LazyDecoratorDescriptor U) (s : @traced U).
Implicit Types (instance owner func method : value).

Lemma factory_calls_snoc (log : list event) (w w' : @world U) ev :
  factory_calls ((log ++ [ev])%list, w') =
    (if is_factory_call ev then 1 else 0) + factory_calls (log, w).
Proof.
  unfold factory_calls. cbn [fst].
  rewrite filter_app, length_app. cbn.
  destruct (is_factory_call ev) eqn:Hev.
  - rewrite decide_True by done. cbn. lia.
  - rewrite decide_False by congruence. cbn. lia.
Qed.

(** [_decorate] invokes the decorator factory exactly once, whether or not
    the factory or the decorator it returns then raises. *)
Lemma decorate_invokes_factory_once self method instance owner s :
  factory_calls
    (LazyDecoratorDescriptor_decorate self method instance owner s).2 =
  S (factory_calls s).
Proof.
  destruct s as [log w].
  unfold LazyDecoratorDescriptor_decorate, mbind, io_bind, call_user.
  destruct (decorator_factory self instance w) as [[d|e] w1].
  - destruct (d method w1) as [r w2]. cbn [snd].
    by rewrite (factory_calls_snoc _ w1), (factory_calls_snoc _ w).
  - cbn [snd]. by rewrite (factory_calls_snoc _ w).
Qed.

Lemma instance_dict_Ok instance (w : @world U) oid d :
  instance_dict instance w = Ok (oid, d) →
  ∃ cls, instance = VObj cls oid ∧ dicts w !! oid = Some d.
Proof.
  destruct instance; try discriminate. cbn.
  destruct (dicts w !! id) eqn:Hd; [|discriminate].
  intros [= <- <-]. eauto.
Qed.

(** A read through an instance whose dictionary already holds the key
    returns what is stored and changes nothing. *)
Lemma cached_hit self instance owner s oid d v :
  _cached (base self) = true →
  instance_dict instance s.2 = Ok (oid, d) →
  d !! __property_name (base self) = Some v →
  LazyDecoratorDescriptor_get self instance owner s = (Ok v, s).
Proof.
  intros Hc Hd Hk.
  destruct (instance_dict_Ok _ _ _ _ Hd) as (cls & -> & _).
  unfold LazyDecoratorDescriptor_get, DecoratingDescriptor_get.
  by rewrite Hc, Hd, Hk.
Qed.

(** The first read: the factory runs once and the result is stored under
    the key in the instance's dictionary. *)
Lemma cached_miss self instance owner s oid d v s1 :
  _cached (base self) = true →
  instance_dict instance s.2 = Ok (oid, d) →
  d !! __property_name (base self) = None →
  LazyDecoratorDescriptor_get self instance owner s = (Ok v, s1) →
  factory_calls s1 = S (factory_calls s)
  ∧ ∃ d1, instance_dict instance s1.2 = Ok (oid, d1)
          ∧ d1 !! __property_name (base self) = Some v.
Proof.
  intros Hc Hd Hk.
  destruct (instance_dict_Ok _ _ _ _ Hd) as (cls & -> & _).
  unfold LazyDecoratorDescriptor_get, DecoratingDescriptor_get.
  rewrite Hc, Hd, Hk.
  pose proof (decorate_invokes_factory_once self
                (function_get (_func (base self)) (VObj cls oid) owner)
                (VObj cls oid) owner s) as Hcalls.
  destruct (LazyDecoratorDescriptor_decorate self _ _ _ s)
    as [[bound|e] [log w]]; [|discriminate].
  destruct (instance_dict (VObj cls oid) w) as [[oid' d']|e] eqn:Hd';
    [|discriminate].
  destruct (instance_dict_Ok _ _ _ _ Hd') as (cls' & [= <- <-] & _).
  intros [= <- <-]. split; [exact Hcalls|].
  exists (<[__property_name (base self) := bound]> d'). cbn.
  by rewrite !lookup_insert_eq.
Qed.

Lemma reads_hit self instance owner s oid d v n :
  _cached (base self) = true →
  instance_dict instance s.2 = Ok (oid, d) →
  d !! __property_name (base self) = Some v →
  reads self instance owner n s = (replicate n (Ok v), s).
Proof.
  intros Hc Hd Hk. induction n as [|n IH]; [done|].
  cbn [reads]. by rewrite (cached_hit _ _ _ _ _ _ _ Hc Hd Hk), IH.
Qed.

Lemma reads_uncached self instance owner n s :
  _cached (base self) = false →
  instance ≠ VNone →
  factory_calls (reads self instance owner n s).2 = factory_calls s + n.
Proof.
  intros Hc Hi. revert s. induction n as [|n IH]; intros s; [cbn; lia|].
  cbn [reads].
  destruct (LazyDecoratorDescriptor_get self instance owner s)
    as [r s'] eqn:Hget.
  specialize (IH s').
  destruct (reads self instance owner n s') as [rs s'']. cbn [snd] in *.
  rewrite IH.
  assert (factory_calls s' = S (factory_calls s)) as ->; [|lia].
  unfold LazyDecoratorDescriptor_get, DecoratingDescriptor_get in Hget.
  rewrite Hc in Hget.
  pose proof (decorate_invokes_factory_once self
                (function_get (_func (base self)) instance owner)
                instance owner s) as Hcalls.
  destruct instance; try done; by rewrite Hget in Hcalls.
Qed.

(** One attribute and one instance, whatever user code does otherwise.
    With [cached=True]: take an instance whose dictionary does not hold the
    descriptor's key yet and whose first read of the attribute returns an
    object [v].  Then over any number of further reads through that
    instance the decorator factory has been invoked exactly once in all,
    and every read returns [v].  With [cached=False]: [n] reads through an
    instance invoke the decorator factory [n] times. *)
Lemma first_read_is_kept
    (cached_desc uncached_desc : @LazyDecoratorDescriptor U)
    instance owner s0 (n : nat) :
  _cached (base cached_desc) = true →
  _cached (base uncached_desc) = false →
  instance ≠ VNone →
  (∀ oid d v s1,
     instance_dict instance s0.2 = Ok (oid, d) →
     d !! __property_name (base cached_desc) = None →
     LazyDecoratorDescriptor_get cached_desc instance owner s0 = (Ok v, s1) →
     reads cached_desc instance owner (S n) s0 = (replicate (S n) (Ok v), s1)
     ∧ factory_calls s1 = S (factory_calls s0))
  ∧ factory_calls (reads uncached_desc instance owner n s0).2 =
      factory_calls s0 + n
  ∧ factory_calls (reads uncached_desc instance owner 2 s0).2 =
      factory_calls s0 + 2.
Proof.
  intros Hon Hoff Hi. split; [|split; by apply reads_uncached].
  intros oid d v s1 Hd Hk Hget.
  destruct (cached_miss _ _ _ _ _ _ _ _ Hon Hd Hk Hget)
    as (Hcalls & d1 & Hd1 & Hk1).
  split; [|exact Hcalls].
  cbn [reads]. rewrite Hget.
  by rewrite (reads_hit _ _ _ _ _ _ _ n Hon Hd1 Hk1).
Qed.

(** C7.  A read through the class, where [instance] is [None], returns the
    function the descriptor was made from, as it is; nothing in the store
    changes and no call into user code is recorded, so the decorator
    factory is not invoked and no decorator is applied. *)
Theorem class_access_returns_plain_function self owner s :
  LazyDecoratorDescriptor_get self VNone owner s = (Ok (_func (base self)), s).
Proof. reflexivity. Qed.

(** Two descriptors never share a key: the key is made from [id(self)]. *)
Lemma property_name_inj (id1 id2 : N) func1 func2 c1 c2 :
  __property_name (DecoratingDescriptor_init id1 func1 c1) =
  __property_name (DecoratingDescriptor_init id2 func2 c2) →
  id1 = id2.
Proof.
  unfold DecoratingDescriptor_init. cbn [__property_name].
  intros Heq. apply (inj pretty).
  change ("__property_" +:+ pretty id1) with
    (String.append "__property_" (pretty id1)) in Heq.
  change ("__property_" +:+ pretty id2) with
    (String.append "__property_" (pretty id2)) in Heq.
  cbn [String.append] in Heq. by simplify_eq.
Qed.

(** C9.  [lazy_decorator] returns its [wrapper] exactly when the factory is
    callable or a string, and otherwise raises a [TypeError] whose message
    ends with the class of the factory. *)
Theorem lazy_decorator_type_error (getattr : value → string → io world decorator)
    (decorator_factory : @pyobject U) (cached : bool) :
  match lazy_decorator getattr decorator_factory cached with
  | Ok _ => callable_ decorator_factory || isinstance_str decorator_factory = true
  | Raise e =>
      callable_ decorator_factory = false
      ∧ isinstance_str decorator_factory = false
      ∧ e = TypeError ("decorator_factory must be callable or string, not "
                       +:+ class_repr (class_of decorator_factory))
  end.
Proof.
  unfold lazy_decorator, callable_, isinstance_str.
  destruct (as_callable decorator_factory) as [f|]; [done|].
  destruct (as_str decorator_factory) as [name|]; done.
Qed.

(** What the returned [wrapper] builds in the two accepted cases. *)
Lemma lazy_decorator_wrapper (getattr : value → string → io world decorator)
    (x : @pyobject U) (cached : bool) wrapper id func :
  lazy_decorator getattr x cached = Ok wrapper →
  _cached (base (wrapper id func)) = cached
  ∧ _func (base (wrapper id func)) = func
  ∧ decorator_factory (wrapper id func) =
      match as_callable x, as_str x with
      | Some f, _ => f
      | None, Some name => attrgetter getattr name
      | None, None => decorator_factory (wrapper id func)
      end.
Proof.
  unfold lazy_decorator.
  destruct (as_callable x) as [f|]; cbn.
  - by intros [= <-].
  - destruct (as_str x) as [name|]; cbn; [|done].
    by intros [= <-].
Qed.

End descriptor_facts.

Lemma first_read_is_kept_example :
  let func := VObj "function" 1 in
  let instance := VObj "Usage" 2 in
  let owner := VObj "type" 3 in
  let cached_desc := LazyDecoratorDescriptor_init 5 numbering_factory func true in
  let uncached_desc :=
    LazyDecoratorDescriptor_init 5 numbering_factory func false in
  let s0 : traced := ([], World {[2%N := ∅]} 10%N) in
  ∃ s1,
    reads cached_desc instance owner 3 s0 =
      ([Ok (VObj "decorated" 10); Ok (VObj "decorated" 10);
        Ok (VObj "decorated" 10)], s1)
    ∧ factory_calls s1 = 1
    ∧ (reads uncached_desc instance owner 2 s0).1 =
        [Ok (VObj "decorated" 10); Ok (VObj "decorated" 11)]
    ∧ factory_calls (reads uncached_desc instance owner 2 s0).2 = 2.
Proof.
  intros func instance owner cached_desc uncached_desc s0.
  assert (Hi : instance ≠ VNone) by discriminate.
  destruct (first_read_is_kept cached_desc uncached_desc
              instance owner s0 2 eq_refl eq_refl Hi) as (Hon & _ & Hoff).
  eexists.
  destruct (Hon 2%N ∅ (VObj "decorated" 10) _ eq_refl eq_refl eq_refl)
    as [Hreads Hcalls].
  split; [exact Hreads|]. split; [exact Hcalls|].
  split; [reflexivity|exact Hoff].
Defined.

Lemma same_cache_refl {U} (w : @world U) : same_cache w w.
Proof. intros oid d Hd. by exists d. Qed.

Lemma same_cache_trans {U} (w1 w2 w3 : @world U) :
  same_cache w1 w2 → same_cache w2 w3 → same_cache w1 w3.
Proof.
  intros H12 H23 oid d Hd.
  destruct (H12 oid d Hd) as (d2 & Hd2 & Hk2).
  destruct (H23 oid d2 Hd2) as (d3 & Hd3 & Hk3).
  exists d3. split; [done|]. intros id func c. by rewrite Hk3, Hk2.
Qed.

Section lazy_attribute_reads.

Context {U : Type}.
Variables (desc : N → @LazyDecoratorDescriptor U) (fn : N → value).
Variables (cls : N → string) (owner : value).

Hypothesis desc_base :
  ∀ id, base (desc id) = DecoratingDescriptor_init id (fn id) true.
Hypothesis desc_factory : ∀ id, keeps_cache (decorator_factory (desc id)).

(** One read.  A pair that has an entry gets it back and nothing runs; a
    pair without one gets what the decorator returned, which is then the
    entry of that pair and of no other. *)
Lemma read_stores (stored : gmap (N * N) value) (univ : gset (N * N))
    (t : N * N) (s : @traced U) :
  cache_holds fn stored univ s →
  t ∈ univ →
  ∃ v s',
    LazyDecoratorDescriptor_get (desc t.1) (VObj (cls t.2) t.2) owner s =
      (Ok v, s')
    ∧ (stored !! t = None ∨ stored !! t = Some v)
    ∧ cache_holds fn (<[t := v]> stored) univ s'
    ∧ factory_calls s' =
        factory_calls s + (if stored !! t is Some _ then 0 else 1).
Proof.
  destruct t as [id oid]. cbn [fst snd]. intros Hinv Ht.
  destruct (Hinv id oid Ht) as (d & Hd & Hk).
  assert (Hc : _cached (base (desc id)) = true) by by rewrite desc_base.
  assert (Hdict : instance_dict (VObj (cls oid) oid) s.2 = Ok (oid, d)).
  { cbn. by rewrite Hd. }
  destruct (stored !! (id, oid)) as [v|] eqn:Hst.
  - exists v, s. split; [|split; [by right|split; [|lia]]].
    + apply (cached_hit _ _ _ _ oid d); [done..|]. by rewrite desc_base.
    + by rewrite insert_id.
  - destruct s as [log w]. cbn [snd] in *.
    destruct (desc_factory id (VObj (cls oid) oid) w)
      as (dcr & w1 & Hfac & Hw1 & Hdcr).
    destruct (Hdcr (VMethod (_func (base (desc id))) (VObj (cls oid) oid)) w1)
      as (v & w2 & Hrun & Hw2).
    pose proof (same_cache_trans _ _ _ Hw1 Hw2) as Hkeep.
    destruct (Hkeep oid d Hd) as (d2 & Hd2 & Hk2).
    exists v. eexists. split; [|split; [by left|split]].
    + unfold LazyDecoratorDescriptor_get, DecoratingDescriptor_get.
      rewrite Hc. cbn [snd function_get]. rewrite Hdict.
      rewrite desc_base at 1. rewrite Hk.
      unfold LazyDecoratorDescriptor_decorate, mbind, io_bind, call_user.
      rewrite Hfac, Hrun. cbn. rewrite Hd2. reflexivity.
    + intros id' oid' Ht'. cbn [snd dicts].
      destruct (Hinv id' oid' Ht') as (d' & Hd' & Hk').
      cbn [snd] in Hd'. rewrite ?desc_base.
      destruct (Hkeep oid' d' Hd') as (d2' & Hd2' & Hk2').
      destruct (decide (oid' = oid)) as [->|Hoid].
      * rewrite lookup_insert_eq. eexists. split; [reflexivity|].
        assert (d2' = d2) as -> by congruence.
        destruct (decide (id' = id)) as [->|Hid].
        -- by rewrite !lookup_insert_eq.
        -- rewrite lookup_insert_ne.
           2:{ intros Heq. by apply property_name_inj in Heq. }
           rewrite lookup_insert_ne by congruence.
           by rewrite Hk2'.
      * rewrite lookup_insert_ne by done. exists d2'. split; [done|].
        rewrite lookup_insert_ne by congruence. by rewrite Hk2'.
    + rewrite (factory_calls_snoc _ w1), (factory_calls_snoc _ w w1).
      cbn. lia.
Qed.

(** A sequence of reads: [stored'] is what the caches hold at the end.
    Every read of a pair returns the entry of that pair, and the factories
    have run once for each entry that was made. *)
Lemma read_all_stores (univ : gset (N * N)) (trace : list (N * N))
    (stored : gmap (N * N) value) (s : @traced U) :
  cache_holds fn stored univ s →
  (∀ t, t ∈ trace → t ∈ univ) →
  ∃ stored' : gmap (N * N) value,
    stored ⊆ stored'
    ∧ dom stored' = dom stored ∪ list_to_set trace
    ∧ (∀ i t, trace !! i = Some t →
         ∃ v, stored' !! t = Some v
              ∧ (read_all desc cls owner trace s).1 !! i = Some (Ok v))
    ∧ factory_calls (read_all desc cls owner trace s).2 + size (dom stored) =
        factory_calls s + size (dom stored').
Proof.
  revert stored s.
  induction trace as [|t trace IH]; intros stored s Hinv Hsub.
  { exists stored. split; [done|]. split.
    - apply set_eq. intros x. rewrite elem_of_union, elem_of_list_to_set.
      split; [tauto|]. intros [?|Hx]; [done|]. by apply elem_of_nil in Hx.
    - split; [intros i t Hi; by rewrite lookup_nil in Hi|]. cbn. lia. }
  destruct (read_stores stored univ t s Hinv (Hsub t (list_elem_of_here _ _)))
    as (v & s' & Hget & Hold & Hinv' & Hcalls).
  destruct (IH (<[t := v]> stored) s' Hinv')
    as (stored' & Hsubm & Hdom & Hreads & Hcount).
  { intros t' Ht'. apply Hsub. by apply list_elem_of_further. }
  exists stored'. cbn [read_all]. rewrite Hget.
  destruct (read_all desc cls owner trace s') as [rs s''].
  cbn [fst snd] in *.
  assert (Hfirst : stored' !! t = Some v).
  { apply (lookup_weaken _ _ _ _ (lookup_insert_eq stored t v) Hsubm). }
  split; [|split; [|split]].
  - transitivity (<[t := v]> stored); [|done].
    destruct Hold as [Hnone|Hsome];
      [by apply insert_subseteq|by rewrite insert_id].
  - rewrite Hdom, dom_insert_L. cbn [list_to_set].
    apply set_eq. intros x. rewrite !elem_of_union. tauto.
  - intros [|i] t' Hi; cbn in Hi.
    + injection Hi as <-. by exists v.
    + exact (Hreads i t' Hi).
  - assert (Hsize : size (dom (<[t := v]> stored)) =
                    size (dom stored)
                    + (if stored !! t is Some _ then 0 else 1)).
    { rewrite !size_dom, map_size_insert.
      destruct (stored !! t); cbn; lia. }
    lia.
Qed.

(** C1.  Take cached lazy attributes, each with a descriptor of its own,
    whose decorator factories and decorators return and leave the caches
    alone, and instances whose dictionaries hold no entry of theirs yet.
    Then over any sequence of reads of these attributes through these
    instances, in any order, there is for every pair of attribute and
    instance that is read one object: every read of the pair returns it,
    the first as the later ones, and the decorator factories have been
    invoked once for each distinct pair, however often and in whatever
    order the pairs are read.  With [cached=False], [n] reads through an
    instance invoke the decorator factory [n] times, so two reads invoke it
    twice, whatever user code does. *)
Theorem lazy_decoration_once_per_pair
    (trace : list (N * N)) (s0 : @traced U)
    (uncached_desc : @LazyDecoratorDescriptor U) (instance : value)
    (n : nat) (s : @traced U) :
  cache_holds fn ∅ (list_to_set trace) s0 →
  _cached (base uncached_desc) = false →
  instance ≠ VNone →
  (∃ first : gmap (N * N) value,
     dom first = list_to_set trace
     ∧ (∀ i t, trace !! i = Some t →
          ∃ v, first !! t = Some v
               ∧ (read_all desc cls owner trace s0).1 !! i = Some (Ok v))
     ∧ factory_calls (read_all desc cls owner trace s0).2 =
         factory_calls s0 + size (list_to_set trace : gset (N * N)))
  ∧ factory_calls (reads uncached_desc instance owner n s).2 =
      factory_calls s + n
  ∧ factory_calls (reads uncached_desc instance owner 2 s).2 =
      factory_calls s + 2.
Proof.
  intros Hinv Hoff Hi. split; [|split; by apply reads_uncached].
  destruct (read_all_stores (list_to_set trace) trace ∅ s0 Hinv)
    as (first & _ & Hdom & Hreads & Hcount).
  { intros t Ht. by apply elem_of_list_to_set. }
  assert (Hdom' : dom first = list_to_set trace).
  { rewrite Hdom, dom_empty_L. apply set_eq. intros x.
    rewrite elem_of_union, elem_of_empty. tauto. }
  exists first. split; [exact Hdom'|]. split; [exact Hreads|].
  rewrite dom_empty_L, size_empty, Hdom' in Hcount. lia.
Qed.

End lazy_attribute_reads.

Lemma numbering_factory_keeps_cache : keeps_cache numbering_factory.
Proof.
  intros instance w. eexists _, _. split; [reflexivity|].
  split; [apply same_cache_refl|].
  intros method w'. eexists _, _. split; [reflexivity|].
  intros oid d Hd. by exists d.
Defined.

Lemma lazy_decoration_once_per_pair_witness :
  let fn := λ id : N, VObj "function" id in
  let desc := λ id : N,
    LazyDecoratorDescriptor_init id numbering_factory (fn id) true in
  let uncached_desc :=
    LazyDecoratorDescriptor_init 7 numbering_factory (fn 7%N) false in
  let trace : list (N * N) := [(5, 2); (5, 2); (6, 2); (5, 3); (5, 2)]%N in
  let s0 : traced := ([], World {[2%N := ∅; 3%N := ∅]} 10%N) in
  cache_holds fn ∅ (list_to_set trace) s0
  ∧ (read_all desc (λ _, "Usage") (VObj "type" 0) trace s0).1 =
      [Ok (VObj "decorated" 10); Ok (VObj "decorated" 10);
       Ok (VObj "decorated" 11); Ok (VObj "decorated" 12);
       Ok (VObj "decorated" 10)]
  ∧ factory_calls
      (read_all desc (λ _, "Usage") (VObj "type" 0) trace s0).2 = 3
  ∧ factory_calls
      (reads uncached_desc (VObj "Usage" 2) (VObj "type" 0) 2 s0).2 = 2.
Proof.
  intros fn desc uncached_desc trace s0.
  assert (Hstate : cache_holds fn ∅ (list_to_set trace) s0).
  { intros id oid Hin. apply elem_of_list_to_set in Hin.
    repeat (apply elem_of_cons in Hin as [[= -> ->]|Hin]);
      try (by apply elem_of_nil in Hin);
      (exists ∅; split; reflexivity). }
  split; [exact Hstate|]. split; [reflexivity|].
  assert (Hi : VObj "Usage" 2 ≠ VNone) by discriminate.
  destruct (lazy_decoration_once_per_pair desc fn (λ _, "Usage")
              (VObj "type" 0) (λ id, eq_refl)
              (λ id, numbering_factory_keeps_cache) trace s0 uncached_desc
              (VObj "Usage" 2) 2 s0 Hstate eq_refl Hi)
    as ((first & _ & _ & Hcount) & _ & Hoff).
  split; [rewrite Hcount; reflexivity|exact Hoff].
Defined.

(** With [cached=True] and a decorator factory that raises, no read
    returns an object and nothing is stored: two reads through the one
    instance invoke the factory twice. *)
Lemma cached_failing_factory_invoked_again :
  let self :=
    LazyDecoratorDescriptor_init 5 failing_factory (VObj "function" 1) true in
  let s0 : traced := ([], World {[2%N := ∅]} ()) in
  ∃ e s2,
    reads self (VObj "Usage" 2) (VObj "type" 3) 2 s0 =
      ([Raise e; Raise e], s2)
    ∧ factory_calls s2 = 2.
Proof.
  intros self s0. eexists _, _. split; vm_compute; reflexivity.
Qed.

(** ** [mirror_defaults] *)

Section mirror_defaults_facts.

Context {R : Type}.
Variable mirrored : funobj.
Implicit Types (p q : inspect.Param) (params : list inspect.Param).

Lemma marked_AUTO_spec p : marked_AUTO p = true ↔ inspect.default p = Some AUTO.
Proof.
  unfold marked_AUTO, AUTO. destruct (inspect.default p) as [v|]; [|done].
  destruct v; cbn; split; congruence.
Qed.

(** The dictionary [defaults] has no entry for a name exactly when no
    parameter of the mirrored function with that name has a default. *)
Lemma defaults_lookup_None (n : string) :
  defaults mirrored !! n = None ↔
  ∀ q, q ∈ signature mirrored → inspect.name q = n → inspect.default q = None.
Proof.
  unfold defaults.
  assert (Hgen : ∀ params (d : gmap string value),
    foldl (λ d p, match inspect.default p with
                  | Some v => <[inspect.name p := v]> d
                  | None => d
                  end) d params !! n = None ↔
    d !! n = None
    ∧ ∀ q, q ∈ params → inspect.name q = n → inspect.default q = None).
  { induction params as [|p params IH]; intros d; cbn.
    - split; [intros ?; split; [done|]|by intros [? _]].
      intros q Hq. by apply elem_of_nil in Hq.
    - rewrite IH. split.
      + intros [Hd Hrest]. destruct (inspect.default p) as [v|] eqn:Hp.
        * destruct (decide (inspect.name p = n)) as [<-|Hne];
            [by rewrite lookup_insert_eq in Hd|].
          rewrite lookup_insert_ne in Hd by done. split; [done|].
          intros q [->|Hq]%elem_of_cons Hn; [done|by apply Hrest].
        * split; [done|].
          intros q [->|Hq]%elem_of_cons Hn; [done|by apply Hrest].
      + intros [Hd Hall]. split.
        * destruct (inspect.default p) as [v|] eqn:Hp; [|done].
          destruct (decide (inspect.name p = n)) as [Heq|Hne].
          -- specialize (Hall p (list_elem_of_here _ _) Heq). congruence.
          -- by rewrite lookup_insert_ne.
        * intros q Hq. apply Hall. by apply list_elem_of_further. }
  rewrite Hgen. split; [by intros [_ ?]|]. intros H. split; [done|exact H].
Qed.

(** Replacing a default by another default is invisible to the checks of
    the [Signature] constructor. *)
Lemma check_param_replace_default tk kd seen p v :
  is_Some (inspect.default p) →
  inspect.check_param tk kd seen (inspect.replace_default p v) =
  inspect.check_param tk kd seen p.
Proof.
  intros [v0 Hv0]. unfold inspect.check_param. cbn. by rewrite Hv0.
Qed.

Lemma new_params_generator_check tk kd seen p q dto dto' :
  new_params_generator mirrored p dto = Ok (q, dto') →
  inspect.check_param tk kd seen q = inspect.check_param tk kd seen p.
Proof.
  unfold new_params_generator.
  destruct (inspect.default p) as [v|] eqn:Hp; [|by intros [= <- <-]].
  destruct (is_AUTO v); [|by intros [= <- <-]].
  destruct (defaults mirrored !! inspect.name p); [|done].
  intros [= <- <-]. apply check_param_replace_default. by rewrite Hp.
Qed.

Lemma new_params_generator_mirrors p q dto dto' :
  new_params_generator mirrored p dto = Ok (q, dto') →
  mirrors mirrored p q
  ∧ dto' = (if marked_AUTO p then {[inspect.name p]} ∪ dto else dto).
Proof.
  unfold new_params_generator, mirrors, marked_AUTO.
  destruct (inspect.default p) as [v|] eqn:Hp; [|by intros [= <- <-]].
  destruct (is_AUTO v); [|by intros [= <- <-]].
  destruct (defaults mirrored !! inspect.name p); [|done].
  by intros [= <- <-].
Qed.

(** On a signature that passes the constructor's checks, the first
    [AUTO]-marked parameter without a mirrored default stops the
    construction with the [TypeError] of [new_params_generator]. *)
Lemma replace_parameters_missing params dto tk kd seen :
  inspect.check_params tk kd seen params = Ok () →
  (∃ p, p ∈ params ∧ marked_AUTO p = true
        ∧ defaults mirrored !! inspect.name p = None) →
  ∃ q, q ∈ params ∧ marked_AUTO q = true
       ∧ defaults mirrored !! inspect.name q = None
       ∧ replace_parameters mirrored params dto tk kd seen =
           Raise (TypeError (fn_name mirrored +:+ " has no default value for "
                             +:+ inspect.name q)).
Proof.
  revert dto tk kd seen.
  induction params as [|p params IH]; intros dto tk kd seen Hvalid Hex.
  { destruct Hex as (p & Hp & _). by apply elem_of_nil in Hp. }
  cbn [inspect.check_params] in Hvalid. cbn [replace_parameters].
  destruct (new_params_generator mirrored p dto) as [[q dto']|e] eqn:Hgen.
  - cbn. rewrite (new_params_generator_check _ _ _ _ _ _ _ Hgen).
    destruct (inspect.check_param tk kd seen p) as [[[tk' kd'] seen']|e];
      [|discriminate].
    cbn in Hvalid |- *.
    destruct (IH dto' tk' kd' seen' Hvalid) as (m & Hm & Hauto & Hnone & Hr).
    { destruct Hex as (m & [->|Hm]%elem_of_cons & Hauto & Hnone); [|eauto].
      unfold new_params_generator in Hgen. unfold marked_AUTO in Hauto.
      destruct (inspect.default p) as [v|]; [|done].
      rewrite Hauto, Hnone in Hgen. discriminate. }
    exists m. split; [by apply list_elem_of_further|].
    split; [done|]. split; [done|]. by rewrite Hr.
  - exists p. unfold new_params_generator in Hgen.
    unfold marked_AUTO.
    destruct (inspect.default p) as [v|]; [|discriminate].
    destruct (is_AUTO v); [|discriminate].
    destruct (defaults mirrored !! inspect.name p) eqn:Hd; [discriminate|].
    injection Hgen as <-. split; [apply list_elem_of_here|]. done.
Qed.

(** When the construction succeeds, the new signature mirrors the old one
    parameter by parameter. *)
Lemma replace_parameters_mirrors params dto tk kd seen new_signature dto' :
  replace_parameters mirrored params dto tk kd seen = Ok (new_signature, dto') →
  Forall2 (mirrors mirrored) params new_signature.
Proof.
  revert dto tk kd seen new_signature.
  induction params as [|p params IH]; intros dto tk kd seen new_signature.
  { cbn. intros [= <- _]. constructor. }
  cbn [replace_parameters].
  destruct (new_params_generator mirrored p dto) as [[q dto1]|e] eqn:Hgen;
    [|discriminate].
  cbn. destruct (inspect.check_param tk kd seen q)
    as [[[tk' kd'] seen']|e]; [|discriminate].
  cbn. destruct (replace_parameters mirrored params dto1 tk' kd' seen')
    as [[ps dto2]|e] eqn:Hrec; [|discriminate].
  cbn. intros [= <- <-]. constructor; [|by eapply IH].
  by destruct (new_params_generator_mirrors _ _ _ _ Hgen).
Qed.

End mirror_defaults_facts.

(** C4.  Let the target's signature be one the [Signature] constructor
    accepts, and let it have a parameter whose default is [AUTO] while no
    parameter of that name on the mirrored function has a default.  Then
    applying the decorator raises a [TypeError] and no wrapped function
    comes into being; the message is the mirrored function's name, the
    words "has no default value for", and the name of such a parameter (the
    first one in the target's signature). *)
Theorem mirror_defaults_missing_default {R} (mirrored : funobj)
    (func : callable (@fn_code R)) (p : inspect.Param) :
  inspect.valid_signature (signature (obj func)) →
  p ∈ signature (obj func) →
  inspect.default p = Some AUTO →
  (∀ m, m ∈ signature mirrored → inspect.name m = inspect.name p →
        inspect.default m = None) →
  ∃ q,
    q ∈ signature (obj func)
    ∧ inspect.default q = Some AUTO
    ∧ (∀ m, m ∈ signature mirrored → inspect.name m = inspect.name q →
            inspect.default m = None)
    ∧ mirror_defaults mirrored func =
        Raise (TypeError (fn_name mirrored +:+ " has no default value for "
                          +:+ inspect.name q)).
Proof.
  intros Hvalid Hp Hauto Hnone.
  destruct (replace_parameters_missing mirrored (signature (obj func)) ∅
              inspect.POSITIONAL_ONLY false ∅ Hvalid)
    as (q & Hq & Hqa & Hqn & Hraise).
  { exists p. split; [done|]. split; [by apply marked_AUTO_spec|].
    by apply defaults_lookup_None. }
  exists q. split; [done|]. split; [by apply marked_AUTO_spec|].
  split; [by apply defaults_lookup_None|].
  unfold mirror_defaults, outer. by rewrite Hraise.
Qed.

Lemma mirror_defaults_missing_default_witness :
  let mirrored :=
    def_obj "foo" [pk "a" (VInt 1);
                   inspect.mkParam "c" inspect.POSITIONAL_OR_KEYWORD None] in
  inspect.valid_signature bar_params
  ∧ pk "c" AUTO ∈ bar_params
  ∧ ∃ q, q ∈ bar_params
         ∧ mirror_defaults mirrored (bar (λ _, ())) =
             Raise (TypeError ("foo has no default value for "
                               +:+ inspect.name q)).
Proof.
  intros mirrored.
  assert (Hvalid : inspect.valid_signature bar_params) by reflexivity.
  assert (Hin : pk "c" AUTO ∈ bar_params).
  { do 2 apply list_elem_of_further. apply list_elem_of_here. }
  split; [exact Hvalid|]. split; [exact Hin|].
  destruct (mirror_defaults_missing_default mirrored (bar (λ _, ()))
              (pk "c" AUTO) Hvalid Hin eq_refl) as (q & Hq & _ & _ & Hraise).
  { intros m Hm Hname.
    apply elem_of_cons in Hm as [->|Hm]; [discriminate|].
    apply list_elem_of_singleton in Hm as ->. reflexivity. }
  exists q. split; [exact Hq|exact Hraise].
Defined.

(** The message on that input, spelled out. *)
Example mirror_defaults_missing_default_message :
  mirror_defaults
    (def_obj "foo" [pk "a" (VInt 1);
                    inspect.mkParam "c" inspect.POSITIONAL_OR_KEYWORD None])
    (bar (λ _, ())) =
  Raise (TypeError "foo has no default value for c").
Proof. reflexivity. Qed.

(** C6, as the code has it.  The signature that [mirror_defaults] computes
    is stored on the wrapped callable as the attribute [signature]; it has
    the target's parameters, each [AUTO] default replaced by the mirrored
    function's default for that name, so it is free of [AUTO] as long as no
    mirrored default is [AUTO] itself.  [inspect.signature] of the wrapped
    callable is not that signature: it follows [__wrapped__] and reports
    the target's own. *)
Theorem mirror_defaults_signature_attribute {R} (mirrored : funobj)
    (func wrapped : callable (@fn_code R)) :
  mirror_defaults mirrored func = Ok wrapped →
  ∃ new_signature,
    fn_signature (obj wrapped) = Some new_signature
    ∧ Forall2 (mirrors mirrored) (signature (obj func)) new_signature
    ∧ ((∀ n, defaults mirrored !! n ≠ Some AUTO) → no_AUTO new_signature)
    ∧ signature (obj wrapped) = signature (obj func).
Proof.
  unfold mirror_defaults, outer.
  destruct (replace_parameters mirrored (signature (obj func)) ∅
              inspect.POSITIONAL_ONLY false ∅)
    as [[new_signature dto]|e] eqn:Hrep; [|discriminate].
  cbn. intros [= <-]. exists new_signature.
  pose proof (replace_parameters_mirrors _ _ _ _ _ _ _ _ Hrep) as Hmir.
  split; [reflexivity|]. split; [exact Hmir|]. split.
  - intros Hno. unfold no_AUTO. clear Hrep.
    induction Hmir as [|p q ps qs (_ & _ & Hd) _ IH]; [constructor|].
    constructor; [|exact IH].
    destruct (marked_AUTO q) eqn:Hq; [|done].
    apply marked_AUTO_spec in Hq. rewrite Hq in Hd.
    destruct (marked_AUTO p) eqn:Hp.
    + by destruct (Hno (inspect.name p)).
    + symmetry in Hd. apply marked_AUTO_spec in Hd. congruence.
  - unfold signature. cbn.
    destruct (obj func) as [? ? ? ? ? ? ? [s|] ?]; reflexivity.
Qed.

Lemma mirror_defaults_signature_attribute_witness :
  ∃ wrapped,
    mirror_defaults foo (bar (λ _, ())) = Ok wrapped
    ∧ fn_signature (obj wrapped) =
        Some [pk "a" (VInt 1); pk "b" (VInt 4); pk "c" (VInt 3)]
    ∧ signature (obj wrapped) = bar_params.
Proof.
  eexists. split; [reflexivity|].
  edestruct (mirror_defaults_signature_attribute foo (bar (λ _, ())))
    as (new_signature & Hattr & _ & _ & Hsig); [reflexivity|].
  split; [reflexivity|exact Hsig].
Defined.

(** C6, as stated, fails on the example of the docstring: what
    [inspect.signature] reports for the wrapped [bar] is [bar]'s own
    signature, in which [a] and [c] still default to [AUTO]. *)
Lemma mirror_defaults_introspection_keeps_AUTO :
  ∃ wrapped,
    mirror_defaults foo (bar (λ _, ())) = Ok wrapped
    ∧ signature (obj wrapped) = bar_params
    ∧ ¬ no_AUTO (signature (obj wrapped)).
Proof.
  eexists. split; [reflexivity|]. split; [reflexivity|].
  intros Hno. apply Forall_cons in Hno as [Ha _]. discriminate.
Qed.

(** C2.  With [foo(a=1, b=2, c=3)] mirrored onto [bar(a=AUTO, b=4,
    c=AUTO)], decorating succeeds, and calling the wrapped [bar] without
    arguments hands the underlying function the one positional argument [1]
    and the keyword [c=3], so that its body runs with [a=1, b=4, c=3]: the
    [AUTO]-marked [a] and [c] have [foo]'s defaults and [b] has [bar]'s
    own. *)
Theorem mirror_defaults_docstring_example {R} (body : gmap string value → R) :
  ∃ wrapped,
    mirror_defaults foo (bar body) = Ok wrapped
    ∧ (∀ (func : @fn_code R),
         inner foo func [pk "a" (VInt 1); pk "b" (VInt 4); pk "c" (VInt 3)]
           {["a"; "c"]} [] [] = func [VInt 1] [("c", VInt 3)])
    ∧ code wrapped [] [] =
        Ok (body (<["a" := VInt 1]> (<["b" := VInt 4]> (<["c" := VInt 3]> ∅)))).
Proof.
  eexists. split; [reflexivity|]. split; [reflexivity|].
  vm_compute. reflexivity.
Qed.

(** The same example with any of the three arguments given by keyword: what
    the caller gives is what the body sees, the rest is as above. *)
Lemma mirror_defaults_docstring_example_keywords {R}
    (body : gmap string value → R) (a b c : option value) :
  ∃ wrapped,
    mirror_defaults foo (bar body) = Ok wrapped
    ∧ code wrapped [] (kw "a" a ++ kw "b" b ++ kw "c" c)%list =
        Ok (body (<["a" := default (VInt 1) a]>
                    (<["b" := default (VInt 4) b]>
                       (<["c" := default (VInt 3) c]> ∅)))).
Proof.
  eexists. split; [reflexivity|].
  destruct a, b, c; vm_compute; reflexivity.
Qed.

(** Positional arguments fill [a], [b], [c] from the left. *)
Lemma mirror_defaults_docstring_example_positional {R}
    (body : gmap string value → R) (x y : value) :
  ∃ wrapped,
    mirror_defaults foo (bar body) = Ok wrapped
    ∧ code wrapped [x] [] =
        Ok (body (<["a" := x]> (<["b" := VInt 4]> (<["c" := VInt 3]> ∅))))
    ∧ code wrapped [x; y] [] =
        Ok (body (<["a" := x]> (<["b" := y]> (<["c" := VInt 3]> ∅))))
    ∧ code wrapped [x] [("a", y)] =
        Raise (TypeError "multiple values for argument 'a'").
Proof.
  eexists. split; [reflexivity|].
  repeat split; vm_compute; reflexivity.
Qed.

Section inject_defaults_facts.

Variable mirrored : funobj.

(** Every name that ends up in [defaults_to_override] has an entry in
    [defaults]. *)
Lemma replace_parameters_overrides params dto tk kd seen new_signature dto' :
  replace_parameters mirrored params dto tk kd seen = Ok (new_signature, dto') →
  (∀ n, n ∈ dto → is_Some (defaults mirrored !! n)) →
  ∀ n, n ∈ dto' → is_Some (defaults mirrored !! n).
Proof.
  revert dto tk kd seen new_signature.
  induction params as [|p params IH]; intros dto tk kd seen new_signature.
  { cbn. by intros [= _ <-]. }
  cbn [replace_parameters].
  destruct (new_params_generator mirrored p dto) as [[q dto1]|e] eqn:Hgen;
    [|discriminate].
  cbn. destruct (inspect.check_param tk kd seen q)
    as [[[tk' kd'] seen']|e]; [|discriminate].
  cbn. destruct (replace_parameters mirrored params dto1 tk' kd' seen')
    as [[ps dto2]|e] eqn:Hrec; [|discriminate].
  cbn. intros [= _ <-] Hdto. eapply IH; [exact Hrec|].
  unfold new_params_generator in Hgen.
  destruct (if inspect.default p is Some v then is_AUTO v else false);
    [|by injection Hgen as _ <-].
  destruct (defaults mirrored !! inspect.name p) as [dv|] eqn:Hd; [|done].
  injection Hgen as _ <-. intros n [->%elem_of_singleton|Hn]%elem_of_union.
  - by rewrite Hd.
  - by apply Hdto.
Qed.

(** So the loop in [inner] never meets a [KeyError]. *)
Lemma inject_defaults_returns (names : list string)
    (arguments : gmap string value) :
  (∀ n, n ∈ names → is_Some (defaults mirrored !! n)) →
  ∃ arguments', inject_defaults mirrored names arguments = Ok arguments'.
Proof.
  revert arguments. induction names as [|n names IH]; intros arguments Hall.
  { by eexists. }
  cbn. destruct (Hall n (list_elem_of_here _ _)) as [v ->].
  apply IH. intros m Hm. apply Hall. by apply list_elem_of_further.
Qed.

End inject_defaults_facts.

(** When the mirrored function is itself wrapped by [mirror_defaults], its
    defaults are read off the signature [inspect.signature] reports, the
    original one: an [AUTO] there is handed on as a default. *)
Lemma mirror_defaults_chained :
  let base := def_obj "base" [pk "a" (VInt 1)] in
  ∃ foo1 bar1,
    mirror_defaults base (def_function "foo" [pk "a" AUTO] (λ _, ())) = Ok foo1
    ∧ mirror_defaults (obj foo1)
        (def_function "bar" [pk "a" AUTO] (λ l, l !! "a")) = Ok bar1
    ∧ fn_signature (obj bar1) = Some [pk "a" AUTO]
    ∧ code bar1 [] [] = Ok (Some AUTO).
Proof.
  intros base. eexists _, _. split; [reflexivity|]. split; [reflexivity|].
  split; [reflexivity|]. vm_compute. reflexivity.
Qed.

Section inner_facts.

Variable mirrored : funobj.

Lemma inject_defaults_lookup (names : list string)
    (arguments arguments' : gmap string value) (n : string) :
  inject_defaults mirrored names arguments = Ok arguments' →
  arguments' !! n =
    if decide (n ∈ names) then defaults mirrored !! n else arguments !! n.
Proof.
  revert arguments. induction names as [|m names IH]; intros arguments.
  { cbn. intros [= <-]. rewrite decide_False; [done|]. apply not_elem_of_nil. }
  cbn. destruct (defaults mirrored !! m) as [v|] eqn:Hm; [|discriminate].
  intros Hrec. rewrite (IH _ Hrec).
  destruct (decide (n ∈ names)) as [Hin|Hout].
  - rewrite decide_True; [done|]. by apply list_elem_of_further.
  - destruct (decide (n = m)) as [->|Hne].
    + rewrite lookup_insert_eq, decide_True; [done|]. apply list_elem_of_here.
    + rewrite lookup_insert_ne by done. rewrite decide_False; [done|].
      by intros [?|?]%elem_of_cons.
Qed.

(** The call step of [inner]: after the loop, a name the caller bound keeps
    the caller's value, an overridden name the caller left out has the
    mirrored default, and nothing else is bound. *)
Lemma inner_injects_mirrored_defaults (defaults_to_override : gset string)
    (arguments : gmap string value) :
  (∀ n, n ∈ defaults_to_override → is_Some (defaults mirrored !! n)) →
  ∃ arguments',
    inject_defaults mirrored
      (elements (defaults_to_override ∖ dom arguments)) arguments =
      Ok arguments'
    ∧ ∀ n, arguments' !! n =
        match arguments !! n with
        | Some v => Some v
        | None =>
            if decide (n ∈ defaults_to_override)
            then defaults mirrored !! n else None
        end.
Proof.
  intros Hall.
  destruct (inject_defaults_returns mirrored
              (elements (defaults_to_override ∖ dom arguments)) arguments)
    as [arguments' Hrun].
  { intros n [Hn _]%elem_of_elements%elem_of_difference. by apply Hall. }
  exists arguments'. split; [exact Hrun|]. intros n.
  rewrite (inject_defaults_lookup _ _ _ n Hrun).
  destruct (arguments !! n) as [v|] eqn:Hn.
  - rewrite decide_False; [done|].
    intros [_ Hdom]%elem_of_elements%elem_of_difference.
    apply Hdom, elem_of_dom. by rewrite Hn.
  - destruct (decide (n ∈ defaults_to_override)) as [Hin|Hout].
    + rewrite decide_True; [done|].
      apply elem_of_elements, elem_of_difference. split; [done|].
      rewrite elem_of_dom, Hn. by intros [? ?].
    + rewrite decide_False; [done|].
      by intros [? _]%elem_of_elements%elem_of_difference.
Qed.

End inner_facts.

(** * Further properties of the module *)

#[local] Set Warnings "-clear-no-such-hyp".

(** ** [mirror_defaults]: the decoration step *)

Section decoration_step.

Variable mirrored : funobj.
Implicit Types (p q : inspect.Param) (params : list inspect.Param).

Lemma check_param_Ok tk kd seen p tk' kd' seen' :
  inspect.check_param tk kd seen p = Ok (tk', kd', seen') →
  (inspect.name p ∉ seen) ∧ seen' = {[inspect.name p]} ∪ seen.
Proof.
  unfold inspect.check_param.
  destruct (decide (inspect.kind_rank (inspect.kind p)
                    < inspect.kind_rank tk)); [discriminate|].
  match goal with |- context [mbind _ ?m] => destruct m as [kd0|e] end;
    [|discriminate].
  cbn. destruct (decide (inspect.name p ∈ seen)); [discriminate|].
  by intros [= _ _ <-].
Qed.

(** A signature the constructor accepts has no two parameters of one
    name. *)
Lemma check_params_NoDup tk kd seen params :
  inspect.check_params tk kd seen params = Ok () →
  NoDup (inspect.name <$> params)
  ∧ ∀ p, p ∈ params → inspect.name p ∉ seen.
Proof.
  revert tk kd seen. induction params as [|p params IH]; intros tk kd seen.
  { intros _. split; [constructor|]. intros p Hp. by apply elem_of_nil in Hp. }
  cbn [inspect.check_params].
  destruct (inspect.check_param tk kd seen p) as [[[tk' kd'] seen']|e] eqn:Hc;
    [|discriminate].
  cbn. intros Hrest.
  destruct (check_param_Ok _ _ _ _ _ _ _ Hc) as [Hnew ->].
  destruct (IH _ _ _ Hrest) as [Hnd Hfresh]. split.
  - cbn. constructor; [|done].
    intros (q & Hq & Hin)%list_elem_of_fmap.
    apply (Hfresh q Hin). rewrite <- Hq. set_solver.
  - intros q [->|Hq]%elem_of_cons; [done|].
    specialize (Hfresh q Hq). set_solver.
Qed.

Lemma replace_parameters_returns params dto tk kd seen :
  inspect.check_params tk kd seen params = Ok () →
  (∀ p, p ∈ params → marked_AUTO p = true →
        is_Some (defaults mirrored !! inspect.name p)) →
  ∃ new_signature dto',
    replace_parameters mirrored params dto tk kd seen =
      Ok (new_signature, dto').
Proof.
  revert dto tk kd seen.
  induction params as [|p params IH]; intros dto tk kd seen Hvalid Hall.
  { by eexists _, _. }
  cbn [inspect.check_params] in Hvalid. cbn [replace_parameters].
  assert (∃ q dto1, new_params_generator mirrored p dto = Ok (q, dto1))
    as (q & dto1 & Hgen).
  { unfold new_params_generator.
    pose proof (Hall p (list_elem_of_here _ _)) as Hp. unfold marked_AUTO in Hp.
    destruct (if inspect.default p is Some v then is_AUTO v else false);
      [|by eexists _, _].
    destruct (Hp eq_refl) as [dv ->]. by eexists _, _. }
  rewrite Hgen. cbn. rewrite (new_params_generator_check _ _ _ _ _ _ _ _ Hgen).
  destruct (inspect.check_param tk kd seen p) as [[[tk' kd'] seen']|e];
    [|discriminate].
  cbn in Hvalid |- *.
  destruct (IH dto1 tk' kd' seen' Hvalid) as (ns & dto' & ->).
  { intros m Hm. apply Hall. by apply list_elem_of_further. }
  by eexists _, _.
Qed.

(** The constructor's checks were run on the new parameters, so the new
    signature is one the constructor accepts. *)
Lemma replace_parameters_valid params dto tk kd seen new_signature dto' :
  replace_parameters mirrored params dto tk kd seen = Ok (new_signature, dto') →
  inspect.check_params tk kd seen new_signature = Ok ().
Proof.
  revert dto tk kd seen new_signature.
  induction params as [|p params IH]; intros dto tk kd seen new_signature.
  { cbn. by intros [= <- _]. }
  cbn [replace_parameters].
  destruct (new_params_generator mirrored p dto) as [[q dto1]|e];
    [|discriminate].
  cbn. destruct (inspect.check_param tk kd seen q)
    as [[[tk' kd'] seen']|e] eqn:Hc; [|discriminate].
  cbn. destruct (replace_parameters mirrored params dto1 tk' kd' seen')
    as [[ps dto2]|e] eqn:Hrec; [|discriminate].
  cbn. intros [= <- <-]. cbn. rewrite Hc. cbn. by eapply IH.
Qed.

(** [defaults_to_override] ends up holding what it held plus the names of
    the [AUTO]-marked parameters. *)
Lemma replace_parameters_overridden params dto tk kd seen new_signature dto' :
  replace_parameters mirrored params dto tk kd seen = Ok (new_signature, dto') →
  dto' = overridden params ∪ dto.
Proof.
  revert dto tk kd seen new_signature.
  induction params as [|p params IH]; intros dto tk kd seen new_signature.
  { cbn. intros [= _ <-]. unfold overridden. cbn. set_solver. }
  cbn [replace_parameters].
  destruct (new_params_generator mirrored p dto) as [[q dto1]|e] eqn:Hgen;
    [|discriminate].
  cbn. destruct (inspect.check_param tk kd seen q)
    as [[[tk' kd'] seen']|e]; [|discriminate].
  cbn. destruct (replace_parameters mirrored params dto1 tk' kd' seen')
    as [[ps dto2]|e] eqn:Hrec; [|discriminate].
  cbn. intros [= _ <-]. rewrite (IH _ _ _ _ _ Hrec).
  destruct (new_params_generator_mirrors _ _ _ _ _ Hgen) as [_ ->].
  unfold overridden.
  destruct (marked_AUTO p); cbn.
  - rewrite decide_True by done. cbn. set_solver.
  - rewrite decide_False by done. set_solver.
Qed.

Lemma mirrors_names_kinds params new_signature :
  Forall2 (mirrors mirrored) params new_signature →
  inspect.name <$> new_signature = inspect.name <$> params
  ∧ inspect.kind <$> new_signature = inspect.kind <$> params.
Proof.
  induction 1 as [|p q ps qs (Hn & Hk & _) _ [IHn IHk]]; [done|].
  cbn. by rewrite Hn, Hk, IHn, IHk.
Qed.

End decoration_step.

Section decoration_facts.

Context {R : Type}.
Implicit Types (mirrored : funobj) (func wrapped : callable (@fn_code R)).

(** What a successful decoration returns, spelled out. *)
Lemma mirror_defaults_Ok_inv mirrored func wrapped :
  mirror_defaults mirrored func = Ok wrapped →
  ∃ new_signature defaults_to_override,
    replace_parameters mirrored (signature (obj func)) ∅
      inspect.POSITIONAL_ONLY false ∅ = Ok (new_signature, defaults_to_override)
    ∧ fn_signature (obj wrapped) = Some new_signature
    ∧ code wrapped =
        inner mirrored (code func) new_signature defaults_to_override.
Proof.
  unfold mirror_defaults, outer.
  destruct (replace_parameters mirrored (signature (obj func)) ∅
              inspect.POSITIONAL_ONLY false ∅) as [[ns dto]|e]; [|discriminate].
  cbn. intros [= <-]. by eexists _, _.
Qed.

(** Decorating a target whose signature the constructor accepts succeeds
    exactly when [defaults] has an entry for the name of every
    [AUTO]-marked parameter. *)
Theorem mirror_defaults_succeeds_iff mirrored func :
  inspect.valid_signature (signature (obj func)) →
  (∃ wrapped, mirror_defaults mirrored func = Ok wrapped) ↔
  (∀ p, p ∈ signature (obj func) → marked_AUTO p = true →
        is_Some (defaults mirrored !! inspect.name p)).
Proof.
  intros Hvalid. split.
  - intros [wrapped Hw] p Hp Hauto.
    destruct (defaults mirrored !! inspect.name p) eqn:Hd; [by eexists|].
    destruct (replace_parameters_missing mirrored (signature (obj func)) ∅
                inspect.POSITIONAL_ONLY false ∅ Hvalid)
      as (q & _ & _ & _ & Hraise); [by exists p|].
    unfold mirror_defaults, outer in Hw. by rewrite Hraise in Hw.
  - intros Hall.
    destruct (replace_parameters_returns mirrored (signature (obj func)) ∅
                inspect.POSITIONAL_ONLY false ∅ Hvalid Hall)
      as (ns & dto & Hrep).
    unfold mirror_defaults, outer. rewrite Hrep. by eexists.
Qed.

(** The signature stored on the wrapped callable is one the [Signature]
    constructor accepts, and it lists the target's parameters under the
    same names and kinds, in the same order. *)
Theorem mirror_defaults_signature_well_formed mirrored func wrapped :
  mirror_defaults mirrored func = Ok wrapped →
  ∃ new_signature,
    fn_signature (obj wrapped) = Some new_signature
    ∧ inspect.valid_signature new_signature
    ∧ inspect.name <$> new_signature = inspect.name <$> signature (obj func)
    ∧ inspect.kind <$> new_signature = inspect.kind <$> signature (obj func).
Proof.
  intros (ns & dto & Hrep & Hattr & _)%mirror_defaults_Ok_inv.
  exists ns. split; [done|]. split.
  - by eapply replace_parameters_valid.
  - eapply mirrors_names_kinds. by eapply replace_parameters_mirrors.
Qed.

(** A parameter that is not marked keeps its default, whatever the
    mirrored function says about its name. *)
Lemma replace_parameters_unmarked mirrored params dto tk kd seen :
  inspect.check_params tk kd seen params = Ok () →
  Forall (λ p, marked_AUTO p = false) params →
  replace_parameters mirrored params dto tk kd seen = Ok (params, dto).
Proof.
  revert dto tk kd seen.
  induction params as [|p params IH]; intros dto tk kd seen Hvalid Hno; [done|].
  apply Forall_cons in Hno as [Hp Hno].
  cbn [inspect.check_params] in Hvalid. cbn [replace_parameters].
  unfold new_params_generator. unfold marked_AUTO in Hp. rewrite Hp. cbn.
  destruct (inspect.check_param tk kd seen p) as [[[tk' kd'] seen']|e];
    [|discriminate].
  cbn in Hvalid |- *. by rewrite (IH _ _ _ _ Hvalid Hno).
Qed.

End decoration_facts.

(** ** [mirror_defaults]: the call step *)

Section bound_arguments.

Implicit Types (p q : inspect.Param) (params : list inspect.Param).
Implicit Types (a m : gmap string value) (kwargs : kwdict).

Lemma kw_get_None k kwargs : k ∉ kwargs.*1 → kw_get k kwargs = None.
Proof.
  induction kwargs as [|[k' v] d IH]; [done|]. cbn.
  intros [Hne Hd]%not_elem_of_cons.
  rewrite decide_False by done. by apply IH.
Qed.

Lemma kw_pop_None k kwargs : k ∉ kwargs.*1 → kw_pop k kwargs = None.
Proof.
  induction kwargs as [|[k' v] d IH]; [done|]. cbn.
  intros [Hne Hd]%not_elem_of_cons.
  rewrite decide_False by done. by rewrite IH.
Qed.

Lemma kw_set_fresh k v kwargs :
  k ∉ kwargs.*1 → kw_set k v kwargs = (kwargs ++ [(k, v)])%list.
Proof.
  induction kwargs as [|[k' v'] d IH]; [done|]. cbn.
  intros [Hne Hd]%not_elem_of_cons.
  rewrite decide_False by done. by rewrite IH.
Qed.

Lemma has_key_false k kwargs : k ∉ kwargs.*1 → inspect.has_key k kwargs = false.
Proof.
  intros Hk. unfold inspect.has_key. rewrite (kw_get_None _ _ Hk).
  apply bool_decide_eq_false_2. by intros [? ?].
Qed.

Lemma bound_pairs_keys a params k :
  k ∈ (bound_pairs a params).*1 → k ∈ inspect.name <$> params.
Proof.
  induction params as [|p params IH]; cbn; [done|].
  destruct (a !! inspect.name p); cbn.
  - intros [->|Hk]%elem_of_cons; [apply list_elem_of_here|].
    apply list_elem_of_further, IH, Hk.
  - intros Hk. apply list_elem_of_further, IH, Hk.
Qed.

(** What is left after the leading run is a tail of the parameters. *)
Lemma leading_suffix a params :
  ∃ pre, params = (pre ++ (leading a params).2)%list.
Proof.
  induction params as [|p params [pre IH]]; [by exists []|]. cbn.
  destruct (a !! inspect.name p); [|by exists []].
  destruct (leading a params) as [vs r]. cbn in *. exists (p :: pre).
  by rewrite IH at 1.
Qed.

Lemma leading_rest_names a params k :
  k ∈ inspect.name <$> (leading a params).2 → k ∈ inspect.name <$> params.
Proof.
  destruct (leading_suffix a params) as [pre Hpre].
  rewrite Hpre at 2. rewrite fmap_app, elem_of_app. by right.
Qed.

(** [BoundArguments.args] over plain parameters. *)
Lemma bound_args_plain a params :
  plain params → inspect.bound_args params a = Ok (leading a params).1.
Proof.
  induction 1 as [|p params Hp _ IH]; [done|]. cbn. rewrite Hp.
  destruct (a !! inspect.name p) as [v|]; [|done].
  rewrite decide_False by done. rewrite IH.
  by destruct (leading a params).
Qed.

Lemma bound_kwargs_started a params kwargs :
  plain params →
  NoDup (inspect.name <$> params) →
  (∀ k, k ∈ kwargs.*1 → k ∉ inspect.name <$> params) →
  inspect.bound_kwargs params a true kwargs =
    Ok (kwargs ++ bound_pairs a params)%list.
Proof.
  intros Hplain. revert kwargs.
  induction Hplain as [|p params Hp _ IH]; intros kwargs Hnd Hfresh.
  { cbn. by rewrite app_nil_r. }
  cbn in Hnd. apply NoDup_cons in Hnd as [Hnew Hnd]. cbn.
  destruct (a !! inspect.name p) as [v|] eqn:Ha; cbn.
  - rewrite Hp. rewrite decide_False by done.
    rewrite kw_set_fresh.
    2:{ intros Hk. apply (Hfresh _ Hk). apply list_elem_of_here. }
    rewrite IH; [by rewrite <- app_assoc|done|].
    intros k. rewrite fmap_app, elem_of_app. cbn.
    intros [Hk | ->%list_elem_of_singleton]; [|done].
    intros Hin. apply (Hfresh _ Hk). by apply list_elem_of_further.
  - apply IH; [done|]. intros k Hk Hin.
    apply (Hfresh _ Hk). by apply list_elem_of_further.
Qed.

(** [BoundArguments.kwargs] over plain parameters. *)
Lemma bound_kwargs_plain a params :
  plain params →
  NoDup (inspect.name <$> params) →
  inspect.bound_kwargs params a false [] =
    Ok (bound_pairs a (leading a params).2).
Proof.
  induction 1 as [|p params Hp Hplain IH]; intros Hnd; [done|].
  cbn in Hnd. apply NoDup_cons in Hnd as [Hnew Hnd]. cbn. rewrite Hp.
  destruct (a !! inspect.name p) as [v|] eqn:Ha.
  - rewrite (IH Hnd). by destruct (leading a params).
  - cbn. rewrite Ha. cbn.
    rewrite bound_kwargs_started; [reflexivity|done|done|].
    intros k Hk. by apply elem_of_nil in Hk.
Qed.

(** Both depend on the parameters' names and kinds only. *)
Lemma bound_args_names_kinds a params params' :
  Forall2 (λ p q, inspect.name q = inspect.name p
                  ∧ inspect.kind q = inspect.kind p) params params' →
  inspect.bound_args params' a = inspect.bound_args params a.
Proof.
  induction 1 as [|p q ps qs [Hn Hk] _ IH]; [done|].
  cbn. by rewrite Hn, Hk, IH.
Qed.

Lemma bound_kwargs_names_kinds a params params' started kwargs :
  Forall2 (λ p q, inspect.name q = inspect.name p
                  ∧ inspect.kind q = inspect.kind p) params params' →
  inspect.bound_kwargs params' a started kwargs =
  inspect.bound_kwargs params a started kwargs.
Proof.
  intros H. revert started kwargs.
  induction H as [|p q ps qs [Hn Hk] _ IH]; intros started kwargs; [done|].
  cbn. rewrite Hn, Hk.
  destruct started, (inspect.kind p), (a !! inspect.name p) as [v|];
    cbn; rewrite ?IH; try done; by destruct v; rewrite ?IH.
Qed.

End bound_arguments.

Section rebinding.

Implicit Types (p q : inspect.Param) (params : list inspect.Param).
Implicit Types (a m : gmap string value) (kwargs : kwdict).

(** The first loop of [bind] takes the positional values back onto the
    leading run and stops at its end. *)
Lemma bind_positional_leading a params kwargs m :
  plain params →
  NoDup (inspect.name <$> params) →
  (∀ p, p ∈ params → a !! inspect.name p = None →
        is_Some (inspect.default p)) →
  (∀ k, k ∈ kwargs.*1 → k ∈ inspect.name <$> (leading a params).2) →
  ∃ m',
    inspect.bind_positional params (leading a params).1 kwargs m =
      Ok (m', (leading a params).2)
    ∧ (∀ n, n ∉ inspect.name <$> params → m' !! n = m !! n)
    ∧ (∀ n, n ∈ inspect.name <$> (leading a params).2 → m' !! n = m !! n)
    ∧ (∀ p, p ∈ params →
            inspect.name p ∉ inspect.name <$> (leading a params).2 →
            m' !! inspect.name p = a !! inspect.name p).
Proof.
  intros Hplain. revert m.
  induction Hplain as [|p params Hp Hplain IH]; intros m Hnd Hdef Hkw.
  { exists m. cbn. repeat split; try done.
    intros p Hp. by apply elem_of_nil in Hp. }
  cbn in Hnd. apply NoDup_cons in Hnd as [Hnew Hnd].
  cbn [leading] in *.
  destruct (a !! inspect.name p) as [v|] eqn:Ha.
  - destruct (leading a params) as [vs r] eqn:Hlead. cbn [fst snd] in *.
    assert (Hr : ∀ k, k ∈ inspect.name <$> r → k ∈ inspect.name <$> params).
    { intros k Hk. apply (leading_rest_names a). by rewrite Hlead. }
    destruct (IH (<[inspect.name p := v]> m) Hnd) as (m' & Hb & H1 & H2 & H3).
    { intros q Hq. apply Hdef. by apply list_elem_of_further. }
    { done. }
    exists m'. split; [|split; [|split]].
    + cbn. rewrite Hp. rewrite has_key_false; [exact Hb|].
      intros Hk. apply Hnew, Hr, Hkw, Hk.
    + intros n [Hne Hn]%not_elem_of_cons.
      rewrite (H1 n Hn). by rewrite lookup_insert_ne.
    + intros n Hn. rewrite (H2 n Hn). rewrite lookup_insert_ne; [done|].
      intros <-. by apply Hnew, Hr.
    + intros q [->|Hq]%elem_of_cons Hout.
      * rewrite (H1 _ Hnew), lookup_insert_eq. by rewrite Ha.
      * by apply H3.
  - exists m. split; [|split; [|split]]; try done.
    + cbn. rewrite decide_False by (by rewrite Hp).
      destruct (Hdef p (list_elem_of_here _ _) Ha) as [dv Hdv].
      destruct (inspect.has_key (inspect.name p) kwargs).
      * rewrite decide_False by (by rewrite Hp). done.
      * rewrite decide_False by (by rewrite Hp). by rewrite Hdv.
    + intros q Hq Hout. exfalso. apply Hout. cbn.
      apply elem_of_cons in Hq as [->|Hq]; [apply list_elem_of_here|].
      apply list_elem_of_further, list_elem_of_fmap. by exists q.
Qed.

Lemma bound_pairs_cons_Some a p params v :
  a !! inspect.name p = Some v →
  bound_pairs a (p :: params) = (inspect.name p, v) :: bound_pairs a params.
Proof. unfold bound_pairs. cbn. by intros ->. Qed.

Lemma bound_pairs_cons_None a p params :
  a !! inspect.name p = None →
  bound_pairs a (p :: params) = bound_pairs a params.
Proof. unfold bound_pairs. cbn. by intros ->. Qed.

(** The second loop takes the keyword values back, one parameter at a
    time, and finds no keyword left over. *)
Lemma bind_keywords_bound_pairs a params m :
  plain params →
  NoDup (inspect.name <$> params) →
  (∀ p, p ∈ params → a !! inspect.name p = None →
        is_Some (inspect.default p)) →
  ∃ m',
    inspect.bind_keywords params (bound_pairs a params) m None = Ok m'
    ∧ ∀ n, m' !! n =
        match (if decide (n ∈ inspect.name <$> params) then a !! n else None)
        with
        | Some v => Some v
        | None => m !! n
        end.
Proof.
  intros Hplain. revert m.
  induction Hplain as [|p params Hp Hplain IH]; intros m Hnd Hdef.
  { exists m. split; [done|]. intros n. rewrite decide_False; [done|].
    apply not_elem_of_nil. }
  cbn in Hnd. apply NoDup_cons in Hnd as [Hnew Hnd].
  assert (Hdef' : ∀ q, q ∈ params → a !! inspect.name q = None →
                       is_Some (inspect.default q)).
  { intros q Hq. apply Hdef. by apply list_elem_of_further. }
  cbn [inspect.bind_keywords]. rewrite Hp.
  destruct (a !! inspect.name p) as [v|] eqn:Ha.
  - rewrite (bound_pairs_cons_Some _ _ _ _ Ha). cbn [kw_pop].
    rewrite decide_True by done. rewrite decide_False by done.
    destruct (IH (<[inspect.name p := v]> m) Hnd Hdef') as (m' & -> & Hm').
    exists m'. split; [done|]. intros n. rewrite Hm'.
    destruct (decide (n = inspect.name p)) as [->|Hne].
    + rewrite (decide_False (P := _ ∈ inspect.name <$> params)) by done.
      rewrite decide_True by apply list_elem_of_here.
      by rewrite lookup_insert_eq, Ha.
    + rewrite lookup_insert_ne by done.
      destruct (decide (n ∈ inspect.name <$> params)) as [Hin|Hout].
      * rewrite decide_True; [done|]. by apply list_elem_of_further.
      * rewrite decide_False; [done|]. by intros [?|?]%elem_of_cons.
  - rewrite (bound_pairs_cons_None _ _ _ Ha). rewrite kw_pop_None.
    2:{ intros Hk. by apply Hnew, (bound_pairs_keys a). }
    destruct (Hdef p (list_elem_of_here _ _) Ha) as [dv ->].
    destruct (IH m Hnd Hdef') as (m' & -> & Hm').
    exists m'. split; [done|]. intros n. rewrite Hm'.
    destruct (decide (n = inspect.name p)) as [->|Hne].
    + rewrite (decide_False (P := _ ∈ inspect.name <$> params)) by done.
      rewrite decide_True by apply list_elem_of_here. by rewrite Ha.
    + destruct (decide (n ∈ inspect.name <$> params)) as [Hin|Hout].
      * rewrite decide_True; [done|]. by apply list_elem_of_further.
      * rewrite decide_False; [done|]. by intros [?|?]%elem_of_cons.
Qed.

(** Round trip: binding what [BoundArguments.args] and
    [BoundArguments.kwargs] hand out gives every parameter the value it
    was bound to, and leaves unbound what was unbound. *)
Lemma bind_bound_arguments a params :
  plain params →
  NoDup (inspect.name <$> params) →
  (∀ p, p ∈ params → a !! inspect.name p = None →
        is_Some (inspect.default p)) →
  ∃ a',
    inspect.bind params (leading a params).1
      (bound_pairs a (leading a params).2) = Ok a'
    ∧ ∀ p, p ∈ params → a' !! inspect.name p = a !! inspect.name p.
Proof.
  intros Hplain Hnd Hdef.
  destruct (leading_suffix a params) as [pre Hpre].
  set (r := (leading a params).2) in *.
  assert (Hr_in : ∀ q, q ∈ r → q ∈ params).
  { intros q Hq. rewrite Hpre, elem_of_app. by right. }
  assert (Hr_plain : plain r).
  { unfold plain in *. rewrite Hpre in Hplain.
    by apply Forall_app in Hplain as [_ ?]. }
  assert (Hr_nd : NoDup (inspect.name <$> r)).
  { rewrite Hpre, fmap_app in Hnd. by apply NoDup_app in Hnd as (_ & _ & ?). }
  destruct (bind_positional_leading a params (bound_pairs a r) ∅
              Hplain Hnd Hdef) as (m1 & Hb1 & H1 & H2 & H3).
  { intros k. apply bound_pairs_keys. }
  destruct (bind_keywords_bound_pairs a r m1 Hr_plain Hr_nd)
    as (a' & Hb2 & Ha').
  { intros q Hq. by apply Hdef, Hr_in. }
  exists a'. split.
  - unfold inspect.bind. fold r. rewrite Hb1. cbn. exact Hb2.
  - intros p Hp. rewrite Ha'.
    destruct (decide (inspect.name p ∈ inspect.name <$> r)) as [Hin|Hout].
    + destruct (a !! inspect.name p) eqn:Ha; [done|].
      by rewrite (H2 _ Hin).
    + by apply H3.
Qed.

(** [apply_defaults] looks the arguments up under the parameters' names
    and nowhere else. *)
Lemma apply_defaults_ext a a' params :
  (∀ p, p ∈ params → a' !! inspect.name p = a !! inspect.name p) →
  inspect.apply_defaults params a' = inspect.apply_defaults params a.
Proof.
  induction params as [|p params IH]; intros Heq; [done|].
  cbn. rewrite (Heq p (list_elem_of_here _ _)), IH; [done|].
  intros q Hq. apply Heq. by apply list_elem_of_further.
Qed.

End rebinding.

Section wrapped_call.

Context {R : Type}.
Variable mirrored : funobj.
Implicit Types (p q : inspect.Param) (params : list inspect.Param).

Lemma NoDup_names_inj params p q :
  NoDup (inspect.name <$> params) →
  p ∈ params → q ∈ params → inspect.name p = inspect.name q → p = q.
Proof.
  induction params as [|x params IH]; cbn; intros Hnd Hp Hq Heq.
  { by apply elem_of_nil in Hp. }
  apply NoDup_cons in Hnd as [Hnew Hnd].
  apply elem_of_cons in Hp as [->|Hp]; apply elem_of_cons in Hq as [->|Hq];
    [done| | |by apply IH].
  - exfalso. apply Hnew. rewrite Heq. apply list_elem_of_fmap. by exists q.
  - exfalso. apply Hnew. rewrite <- Heq. apply list_elem_of_fmap. by exists p.
Qed.

Lemma overridden_spec params p :
  NoDup (inspect.name <$> params) →
  p ∈ params →
  inspect.name p ∈ overridden params ↔ marked_AUTO p = true.
Proof.
  intros Hnd Hp. unfold overridden.
  rewrite elem_of_list_to_set, list_elem_of_fmap. split.
  - intros (q & Hname & [Hq Hin]%list_elem_of_filter).
    by rewrite (NoDup_names_inj params p q).
  - intros Hm. exists p. split; [done|]. by apply list_elem_of_filter.
Qed.

Lemma apply_defaults_resolved params (arguments a : gmap string value) :
  (∀ p, p ∈ params →
        is_Some (inspect.default p)
        ∧ resolve mirrored arguments p =
            match a !! inspect.name p with
            | Some v => Some v
            | None => inspect.default p
            end) →
  inspect.apply_defaults params a = resolved_locals mirrored arguments params.
Proof.
  induction params as [|p params IH]; intros Hall; [done|].
  cbn. destruct (Hall p (list_elem_of_here _ _)) as [[dv Hdv] ->].
  rewrite IH. 2:{ intros q Hq. apply Hall. by apply list_elem_of_further. }
  destruct (a !! inspect.name p); [done|]. by rewrite Hdv.
Qed.

(** The wrapped function, for a target whose parameters are all plain and
    optional: a call that the new signature cannot bind raises the binding
    error as it is and the target's body does not run; any other call
    runs the target's body with every parameter at the caller's value, or
    else at the mirrored default if the parameter is marked [AUTO], or
    else at the parameter's own default. *)
Theorem mirror_defaults_call (fname : string) params
    (body : gmap string value → R) (wrapped : callable (@fn_code R))
    (args : list value) (kwargs : kwdict) :
  inspect.valid_signature params →
  all_optional params →
  mirror_defaults mirrored (def_function fname params body) = Ok wrapped →
  ∃ new_signature,
    fn_signature (obj wrapped) = Some new_signature
    ∧ code wrapped args kwargs =
        match inspect.bind new_signature args kwargs with
        | Ok arguments =>
            Ok (body (resolved_locals mirrored arguments params))
        | Raise e => Raise e
        end.
Proof.
  intros Hvalid Hopt (ns & dto & Hrep & Hattr & Hcode)%mirror_defaults_Ok_inv.
  change (signature (obj (def_function fname params body))) with params
    in Hrep.
  exists ns. split; [done|]. rewrite Hcode. unfold inner.
  destruct (inspect.bind ns args kwargs) as [arguments|e]; [|done].
  cbn [mbind result_bind].
  destruct (check_params_NoDup _ _ _ _ Hvalid) as [Hnd _].
  assert (Hplain : plain params).
  { unfold plain. eapply Forall_impl; [exact Hopt|]. by intros p [? _]. }
  assert (Hdefs : ∀ p, p ∈ params → is_Some (inspect.default p)).
  { intros p Hp. by apply (proj1 (Forall_forall _ _) Hopt p Hp). }
  pose proof (replace_parameters_overridden _ _ _ _ _ _ _ _ Hrep) as Hdto.
  assert (Hall : ∀ n, n ∈ dto → is_Some (defaults mirrored !! n)).
  { eapply replace_parameters_overrides; [exact Hrep|]. set_solver. }
  destruct (inner_injects_mirrored_defaults mirrored dto arguments Hall)
    as (a & -> & Ha).
  cbn [mbind result_bind].
  pose proof (replace_parameters_mirrors _ _ _ _ _ _ _ _ Hrep) as Hmir.
  assert (Hnk : Forall2 (λ p q, inspect.name q = inspect.name p
                                ∧ inspect.kind q = inspect.kind p) params ns).
  { eapply Forall2_impl; [exact Hmir|]. by intros p q (? & ? & _). }
  rewrite (bound_args_names_kinds _ _ _ Hnk), (bound_args_plain _ _ Hplain).
  cbn [mbind result_bind].
  rewrite (bound_kwargs_names_kinds _ _ _ _ _ Hnk),
    (bound_kwargs_plain _ _ Hplain Hnd).
  cbn [mbind result_bind def_function code]. unfold call_def.
  destruct (bind_bound_arguments a params Hplain Hnd) as (a' & -> & Ha').
  { intros p Hp _. by apply Hdefs. }
  cbn [mbind result_bind]. do 2 f_equal.
  rewrite (apply_defaults_ext _ _ _ Ha').
  apply apply_defaults_resolved. intros p Hp. split; [by apply Hdefs|].
  unfold resolve. rewrite Ha.
  destruct (arguments !! inspect.name p); [done|].
  destruct (marked_AUTO p) eqn:Hm.
  - assert (Hin : inspect.name p ∈ dto).
    { rewrite Hdto. apply elem_of_union_l. by apply overridden_spec. }
    rewrite decide_True by done.
    by destruct (Hall _ Hin) as [dv ->].
  - rewrite decide_False; [done|]. rewrite Hdto.
    intros [Hin|Hin]%elem_of_union; [|by apply elem_of_empty in Hin].
    apply (overridden_spec params p Hnd Hp) in Hin. congruence.
Qed.

End wrapped_call.

Lemma mirror_defaults_call_witness :
  ∃ wrapped,
    inspect.valid_signature bar_params
    ∧ all_optional bar_params
    ∧ mirror_defaults foo (def_function "bar" bar_params (λ l, l)) = Ok wrapped
    ∧ ∃ new_signature,
        fn_signature (obj wrapped) = Some new_signature
        ∧ code wrapped [VInt 7] [("c", VInt 9)] =
            match inspect.bind new_signature [VInt 7] [("c", VInt 9)] with
            | Ok arguments => Ok (resolved_locals foo arguments bar_params)
            | Raise e => Raise e
            end.
Proof.
  assert (Hvalid : inspect.valid_signature bar_params) by reflexivity.
  assert (Hopt : all_optional bar_params).
  { repeat constructor; by eexists. }
  eexists. split; [exact Hvalid|]. split; [exact Hopt|].
  split; [reflexivity|].
  exact (mirror_defaults_call foo "bar" bar_params (λ l, l) _
           [VInt 7] [("c", VInt 9)] Hvalid Hopt eq_refl).
Defined.

Section decoration_more.

Context {R : Type}.
Implicit Types (mirrored : funobj) (func wrapped : callable (@fn_code R)).

(** A target without an [AUTO]-marked parameter: the decoration succeeds
    whatever the mirrored function is, the stored signature is the
    target's own, and a call binds the arguments against it and passes
    them on as [BoundArguments] splits them. *)
Theorem mirror_defaults_unmarked mirrored func :
  inspect.valid_signature (signature (obj func)) →
  no_AUTO (signature (obj func)) →
  ∃ wrapped,
    mirror_defaults mirrored func = Ok wrapped
    ∧ fn_signature (obj wrapped) = Some (signature (obj func))
    ∧ ∀ args kwargs,
        code wrapped args kwargs =
          (arguments ← inspect.bind (signature (obj func)) args kwargs;
           binding_args ← inspect.bound_args (signature (obj func)) arguments;
           binding_kwargs ←
             inspect.bound_kwargs (signature (obj func)) arguments false [];
           code func binding_args binding_kwargs).
Proof.
  intros Hvalid Hno. unfold mirror_defaults, outer.
  rewrite (replace_parameters_unmarked mirrored _ ∅ _ _ _ Hvalid Hno). cbn.
  eexists. split; [reflexivity|]. split; [reflexivity|].
  intros args kwargs. cbn. unfold inner.
  destruct (inspect.bind (signature (obj func)) args kwargs) as [a|e]; [|done].
  cbn. replace (elements ((∅ : gset string) ∖ dom a)) with (@nil string); [done|].
  symmetry. apply elements_empty_iff. set_solver.
Qed.

(** What [functools.wraps] leaves on the wrapped callable: the target's
    name, and the target's signature as far as [inspect.signature] is
    concerned. *)
Lemma mirror_defaults_wrapped_obj mirrored func wrapped :
  mirror_defaults mirrored func = Ok wrapped →
  fn_name (obj wrapped) = fn_name (obj func)
  ∧ signature (obj wrapped) = signature (obj func).
Proof.
  unfold mirror_defaults, outer.
  destruct (replace_parameters mirrored (signature (obj func)) ∅
              inspect.POSITIONAL_ONLY false ∅) as [[ns dto]|e]; [|discriminate].
  cbn. intros [= <-]. split; [reflexivity|].
  unfold signature. cbn.
  destruct (obj func) as [? ? ? ? ? ? ? [s|] ?]; reflexivity.
Qed.

Lemma defaults_ext mirrored mirrored' :
  signature mirrored = signature mirrored' →
  defaults mirrored = defaults mirrored'.
Proof. unfold defaults. by intros ->. Qed.

Lemma replace_parameters_ext mirrored mirrored' params dto tk kd seen :
  fn_name mirrored = fn_name mirrored' →
  signature mirrored = signature mirrored' →
  replace_parameters mirrored params dto tk kd seen =
  replace_parameters mirrored' params dto tk kd seen.
Proof.
  intros Hname Hsig%defaults_ext. revert dto tk kd seen.
  induction params as [|p params IH]; intros dto tk kd seen; [done|].
  cbn [replace_parameters]. unfold new_params_generator.
  rewrite Hname, Hsig.
  destruct (if inspect.default p is Some v then is_AUTO v else false).
  - destruct (defaults mirrored' !! inspect.name p); [|done]. cbn.
    destruct (inspect.check_param _ _ _ _) as [[[tk' kd'] seen']|e]; [|done].
    cbn. by rewrite IH.
  - cbn. destruct (inspect.check_param _ _ _ _) as [[[tk' kd'] seen']|e];
      [|done].
    cbn. by rewrite IH.
Qed.

Lemma inject_defaults_ext mirrored mirrored' names a :
  signature mirrored = signature mirrored' →
  inject_defaults mirrored names a = inject_defaults mirrored' names a.
Proof.
  intros Hsig%defaults_ext. revert a.
  induction names as [|n names IH]; intros a; [done|].
  cbn. rewrite Hsig. by destruct (defaults mirrored' !! n).
Qed.

(** [mirror_defaults] uses the mirrored function through its name and
    through what [inspect.signature] reports for it, and through nothing
    else: two mirrored functions that agree on both give the same
    decorator. *)
Theorem mirror_defaults_mirrored_ext mirrored mirrored' func :
  fn_name mirrored = fn_name mirrored' →
  signature mirrored = signature mirrored' →
  match mirror_defaults mirrored func, mirror_defaults mirrored' func with
  | Ok w, Ok w' =>
      obj w = obj w' ∧ ∀ args kwargs, code w args kwargs = code w' args kwargs
  | Raise e, Raise e' => e = e'
  | _, _ => False
  end.
Proof.
  intros Hname Hsig. unfold mirror_defaults, outer.
  rewrite (replace_parameters_ext mirrored mirrored' _ _ _ _ _ Hname Hsig).
  destruct (replace_parameters mirrored' (signature (obj func)) ∅
              inspect.POSITIONAL_ONLY false ∅) as [[ns dto]|e]; [|done].
  cbn. split; [done|]. intros args kwargs. unfold inner.
  destruct (inspect.bind ns args kwargs) as [a|e]; [|done]. cbn.
  by rewrite (inject_defaults_ext mirrored mirrored' _ _ Hsig).
Qed.

(** So mirroring a function that [mirror_defaults] has wrapped is mirroring
    its undecorated target: the defaults copied are the target's own,
    [AUTO] placeholders included, not the substituted ones. *)
Theorem mirror_defaults_of_wrapped mirrored0 func0 wrapped0 func :
  mirror_defaults mirrored0 func0 = Ok wrapped0 →
  match mirror_defaults (obj wrapped0) func, mirror_defaults (obj func0) func
  with
  | Ok w, Ok w' =>
      obj w = obj w' ∧ ∀ args kwargs, code w args kwargs = code w' args kwargs
  | Raise e, Raise e' => e = e'
  | _, _ => False
  end.
Proof.
  intros [Hname Hsig]%mirror_defaults_wrapped_obj.
  unfold mirror_defaults, outer.
  rewrite (replace_parameters_ext (obj wrapped0) (obj func0) _ _ _ _ _
             Hname Hsig).
  destruct (replace_parameters (obj func0) (signature (obj func)) ∅
              inspect.POSITIONAL_ONLY false ∅) as [[ns dto]|e]; [|done].
  cbn. split; [done|]. intros args kwargs. unfold inner.
  destruct (inspect.bind ns args kwargs) as [a|e]; [|done]. cbn.
  by rewrite (inject_defaults_ext (obj wrapped0) (obj func0) _ _ Hsig).
Qed.

End decoration_more.

Lemma mirror_defaults_unmarked_witness :
  let params := [pk "x" (VInt 1); pk "y" VNone] in
  inspect.valid_signature params
  ∧ no_AUTO params
  ∧ ∃ wrapped,
      mirror_defaults foo (def_function "plain" params (λ l, l)) = Ok wrapped
      ∧ fn_signature (obj wrapped) = Some params.
Proof.
  intros params.
  assert (Hvalid : inspect.valid_signature params) by reflexivity.
  assert (Hno : no_AUTO params) by (by repeat constructor).
  split; [exact Hvalid|]. split; [exact Hno|].
  destruct (mirror_defaults_unmarked foo
              (def_function "plain" params (λ l, l)) Hvalid Hno)
    as (wrapped & Hw & Hattr & _).
  exists wrapped. split; [exact Hw|exact Hattr].
Defined.

Lemma mirror_defaults_mirrored_ext_witness :
  let foo' := functools.update_wrapper (def_obj "inner" []) foo in
  fn_name foo = fn_name foo'
  ∧ signature foo = signature foo'
  ∧ ∃ w w',
      mirror_defaults foo (bar (λ l, l)) = Ok w
      ∧ mirror_defaults foo' (bar (λ l, l)) = Ok w'
      ∧ obj w = obj w'.
Proof.
  intros foo'.
  assert (Hname : fn_name foo = fn_name foo') by reflexivity.
  assert (Hsig : signature foo = signature foo') by reflexivity.
  split; [exact Hname|]. split; [exact Hsig|].
  eexists _, _. split; [reflexivity|]. split; [reflexivity|].
  exact (proj1 (mirror_defaults_mirrored_ext foo foo' (bar (λ l, l))
                  Hname Hsig)).
Defined.

Lemma mirror_defaults_of_wrapped_witness :
  let baz := def_function "baz" [pk "a" AUTO] (λ l : gmap string value, l) in
  ∃ wrapped0 w w',
    mirror_defaults (def_obj "base" [pk "a" (VInt 1)])
      (def_function "foo" [pk "a" AUTO] (λ l, l)) = Ok wrapped0
    ∧ mirror_defaults (obj wrapped0) baz = Ok w
    ∧ mirror_defaults (def_obj "foo" [pk "a" AUTO]) baz = Ok w'
    ∧ obj w = obj w'.
Proof.
  intros baz.
  eexists _, _, _. split; [reflexivity|]. split; [reflexivity|].
  split; [reflexivity|].
  exact (proj1 (mirror_defaults_of_wrapped
                  (def_obj "base" [pk "a" (VInt 1)])
                  (def_function "foo" [pk "a" AUTO] (λ l, l)) _ baz eq_refl)).
Defined.

(** ** The adapters under introspection *)

(** What [inspect.signature] reports after [update_wrapper]: the wrapped
    function's signature, unless only the wrapper carries a
    [__signature__] of its own. *)
Lemma update_wrapper_signature (wrapper wrapped : funobj) :
  signature (functools.update_wrapper wrapper wrapped) =
    match fn_dunder_signature wrapped, fn_dunder_signature wrapper with
    | None, Some s => s
    | _, _ => signature wrapped
    end.
Proof.
  unfold signature. cbn.
  destruct wrapped as [? ? ? ? ? ? ? [s|] ?]; cbn; [done|].
  by destruct (fn_dunder_signature wrapper).
Qed.

Section adapters_introspection.

Context {W Code : Type}.
Implicit Types (f r : fnref Code) (h : objects) (w : W) (s : @store W).



Lemma kw_get_set k k' v (d : kwdict) :
  kw_get k (kw_set k' v d) = if decide (k = k') then Some v else kw_get k d.
Proof.
  induction d as [|[k0 v0] d IH]; cbn.
  - by destruct (decide (k = k')).
  - destruct (decide (k' = k0)) as [->|Hne]; cbn.
    + by destruct (decide (k = k0)).
    + destruct (decide (k = k0)) as [->|Hne'].
      * rewrite decide_False; [done|]. congruence.
      * exact IH.
Qed.

Lemma kw_get_update k (d e : kwdict) :
  NoDup e.*1 →
  kw_get k (kw_update d e) =
    match kw_get k e with Some v => Some v | None => kw_get k d end.
Proof.
  unfold kw_update. revert d.
  induction e as [|[k' v] e IH]; intros d Hnd; [done|].
  cbn in Hnd. apply NoDup_cons in Hnd as [Hnew Hnd].
  cbn. rewrite (IH _ Hnd), kw_get_set.
  destruct (decide (k = k')) as [->|Hne]; [|done].
  by rewrite (kw_get_None _ _ Hnew).
Qed.

(** Options in two places: configuring with [opts] and then calling the
    [partial] with [f] and the keywords [more] runs
    [deco(f, **merged)], where a key given at the call has the call's
    value and every other key has the value it was configured with. *)
Theorem parametrizeable_decorator_merges_options
    (deco : fnref (@deco_fn W Code)) f (opts more : kwdict) (s0 : @store W) :
  NoDup more.*1 →
  ∃ wrapped s1,
    parametrizeable_decorator deco s0 = (Ok wrapped, s1)
    ∧ ∀ s, ∃ p merged,
        call wrapped None opts s = (Ok (Awaiting p), s)
        ∧ partial_call p f more s = call deco f merged s
        ∧ ∀ k, kw_get k merged =
            match kw_get k more with
            | Some v => Some v
            | None => kw_get k opts
            end.
Proof.
  intros Hnd. eexists _, _. split; [reflexivity|].
  intros s.
  exists (functools.Partial (call deco) opts), (kw_update opts more).
  split; [reflexivity|]. split; [reflexivity|].
  intros k. by apply kw_get_update.
Qed.

End adapters_introspection.



Lemma parametrizeable_decorator_merges_options_witness :
  let opts := [("a", VInt 1); ("b", VInt 2)] in
  let more := [("b", VInt 5); ("c", VInt 6)] in
  NoDup more.*1
  ∧ ∃ wrapped s1,
      parametrizeable_decorator counting_deco (example_objects, ()) =
        (Ok wrapped, s1)
      ∧ ∃ p merged,
          call wrapped None opts s1 = (Ok (Awaiting p), s1)
          ∧ partial_call p target more s1 =
              call counting_deco target merged s1
          ∧ kw_get "a" merged = Some (VInt 1)
          ∧ kw_get "b" merged = Some (VInt 5)
          ∧ kw_get "c" merged = Some (VInt 6).
Proof.
  intros opts more.
  assert (Hnd : NoDup more.*1).
  { cbn. repeat constructor; set_solver. }
  split; [exact Hnd|].
  destruct (parametrizeable_decorator_merges_options counting_deco target
              opts more (example_objects, ()) Hnd)
    as (wrapped & s1 & Hmk & Hall).
  exists wrapped, s1. split; [exact Hmk|].
  destruct (Hall s1) as (p & merged & Hp & Hcall & Hget).
  exists p, merged. split; [exact Hp|]. split; [exact Hcall|].
  split; [exact (Hget "a")|]. split; [exact (Hget "b")|exact (Hget "c")].
Defined.

(** ** [mirror_defaults]: the call step for any signature *)

Section call_step.

Context {R : Type}.

(** Whatever the kinds of the target's parameters: once the caller's
    arguments bind against the new signature, the loop over
    [defaults_to_override] cannot raise [KeyError]; it leaves the caller's
    bindings alone, adds the mirrored default under the name of every
    [AUTO]-marked parameter the caller left out, and the target is called
    with the positional and keyword split of the result. *)
Theorem mirror_defaults_call_step (mirrored : funobj)
    (func wrapped : callable (@fn_code R)) (new_signature : inspect.Signature)
    (args : list value) (kwargs : kwdict) (arguments : gmap string value) :
  mirror_defaults mirrored func = Ok wrapped →
  fn_signature (obj wrapped) = Some new_signature →
  inspect.bind new_signature args kwargs = Ok arguments →
  ∃ injected,
    (∀ n, injected !! n =
        match arguments !! n with
        | Some v => Some v
        | None =>
            if decide (n ∈ overridden (signature (obj func)))
            then defaults mirrored !! n else None
        end)
    ∧ (∀ n, n ∈ overridden (signature (obj func)) → is_Some (injected !! n))
    ∧ code wrapped args kwargs =
        (binding_args ← inspect.bound_args new_signature injected;
         binding_kwargs ←
           inspect.bound_kwargs new_signature injected false [];
         code func binding_args binding_kwargs).
Proof.
  intros (ns & dto & Hrep & Hattr & Hcode)%mirror_defaults_Ok_inv Hsig Hbind.
  rewrite Hattr in Hsig. injection Hsig as <-.
  pose proof (replace_parameters_overridden _ _ _ _ _ _ _ _ Hrep) as Hdto.
  assert (Hall : ∀ n, n ∈ dto → is_Some (defaults mirrored !! n)).
  { eapply replace_parameters_overrides; [exact Hrep|]. set_solver. }
  destruct (inner_injects_mirrored_defaults mirrored dto arguments Hall)
    as (a & Hrun & Ha).
  assert (Hdto' : ∀ n, n ∈ dto ↔ n ∈ overridden (signature (obj func))).
  { intros n. rewrite Hdto. set_solver. }
  exists a. split; [|split].
  - intros n. rewrite Ha. destruct (arguments !! n); [done|].
    destruct (decide (n ∈ dto)) as [Hin|Hout].
    + rewrite decide_True; [done|]. by apply Hdto'.
    + rewrite decide_False; [done|]. by rewrite <- Hdto'.
  - intros n Hn%Hdto'. rewrite Ha. destruct (arguments !! n); [by eexists|].
    rewrite decide_True by done. by apply Hall.
  - rewrite Hcode. unfold inner. rewrite Hbind. cbn [mbind result_bind].
    by rewrite Hrun.
Qed.

End call_step.

Lemma mirror_defaults_call_step_witness :
  let keyword_only :=
    [inspect.mkParam "a" inspect.KEYWORD_ONLY (Some AUTO);
     inspect.mkParam "rest" inspect.VAR_KEYWORD None] in
  ∃ wrapped new_signature arguments (injected : gmap string value),
    mirror_defaults foo (def_function "kw" keyword_only (λ l, l)) = Ok wrapped
    ∧ fn_signature (obj wrapped) = Some new_signature
    ∧ inspect.bind new_signature [] [("z", VInt 0)] = Ok arguments
    ∧ injected !! "a" = Some (VInt 1)
    ∧ injected !! "rest" = Some (VDict [("z", VInt 0)]).
Proof.
  intros keyword_only.
  eexists _, _, _.
  epose proof (mirror_defaults_call_step foo
                 (def_function "kw" keyword_only (λ l, l)) _ _
                 [] [("z", VInt 0)] _ eq_refl eq_refl eq_refl)
    as (injected & Hlook & _ & _).
  exists injected. split; [reflexivity|]. split; [reflexivity|].
  split; [reflexivity|]. split.
  - rewrite Hlook. reflexivity.
  - rewrite Hlook. reflexivity.
Defined.

(** ** The proxy of [reusable_contextmanager] under [with] *)

Section proxy_with.

Context {W CM : Type} `{!ContextManager W CM} `{!Recreatable CM}.

(** A [with] block over the proxy is the same block over a manager that
    [_recreate_cm] has just built: same store afterwards, the manager left
    in the proxy's [cm], and the same outcome, except that where the
    manager would have swallowed the block's exception the proxy lets it
    through. *)
Theorem with_proxy_as_recreated {A} (body : value → io W A)
    (captured fresh c' : CM) (previous : option CM) (w w' : W)
    (r : result (option A)) :
  recreate_cm captured = Some (Ok fresh) →
  with_stmt body (fresh, w) = (r, (c', w')) →
  ∃ r',
    with_stmt body (mkReusableCtx captured previous, w) =
      (r', (mkReusableCtx captured (Some c'), w'))
    ∧ (r ≠ Ok None → r' = r)
    ∧ (r = Ok None →
       ∃ x c1 w1 e w2,
         __enter__ (fresh, w) = (Ok x, (c1, w1))
         ∧ body x w1 = (Raise e, w2)
         ∧ r' = Raise e).
Proof.
  intros Hrec. unfold with_stmt at 1 2.
  rewrite enter_proxy. unfold ReusableCtx_enter. cbn [context_manager].
  rewrite Hrec.
  destruct (__enter__ (fresh, w)) as [[x|e] [c1 w1]].
  2:{ intros [= <- <- <-]. eexists. split; [reflexivity|].
      split; [done|discriminate]. }
  destruct (body x w1) as [[a|e] w2] eqn:Hbody;
    rewrite exit_proxy, (ReusableCtx_exit_entered _ _ c1) by done;
    cbn [context_manager].
  - destruct (__exit__ None (c1, w2)) as [[r0|e0] [c2 w3]];
      cbn [mbind result_bind]; intros [= <- <- <-].
    all: (eexists; split; [reflexivity|]; split; [done|discriminate]).
  - destruct (__exit__ (Some e) (c1, w2)) as [[r0|e0] [c2 w3]];
      cbn [mbind result_bind truthy].
    + destruct (truthy r0); intros [= <- <- <-].
      * eexists. split; [reflexivity|]. split; [by intros []|].
        intros _. by eexists x, c1, w1, e, w2.
      * eexists. split; [reflexivity|]. split; [done|discriminate].
    + intros [= <- <- <-]. eexists. split; [reflexivity|].
      split; [done|discriminate].
Qed.

End proxy_with.

Lemma with_proxy_as_recreated_witness :
  let cm0 := contextlib.mkGCM acquire_gen acquire [] [] in
  let c' := contextlib.mkGCM contextlib.GenDone acquire [] [] in
  let body : value → io nat value := λ x w, (Ok x, w + 10) in
  recreate_cm cm0 = Some (Ok cm0)
  ∧ with_stmt body (cm0, 0) = (Ok (Some (VInt 1)), (c', 11))
  ∧ with_stmt body (mkReusableCtx cm0 None, 0) =
      (Ok (Some (VInt 1)), (mkReusableCtx cm0 (Some c'), 11)).
Proof.
  intros cm0 c' body.
  assert (Hrec : recreate_cm cm0 = Some (Ok cm0)) by reflexivity.
  assert (Hrun : with_stmt body (cm0, 0) = (Ok (Some (VInt 1)), (c', 11)))
    by reflexivity.
  split; [exact Hrec|]. split; [exact Hrun|].
  destruct (with_proxy_as_recreated body cm0 cm0 c' None 0 11
              (Ok (Some (VInt 1))) Hrec Hrun) as (r' & Hproxy & Hsame & _).
  rewrite Hproxy. by rewrite Hsame.
Defined.

Section proxy_reentry.

Context {W : Type}.

(** The proxy keeps one manager, the one its last [__enter__] made.  Enter
    it twice and then exit twice: the first exit finishes the manager of
    the second enter, the second exit finds that same manager spent,
    returns [None] and touches nothing.  The manager of the first enter is
    never exited, so the rest of its generator never runs. *)
Theorem reusable_proxy_not_reentrant (func : @contextlib.genfunc W)
    (args : list value) (kwds : kwdict)
    (cm0 : @contextlib.GeneratorContextManager W) (wa wb wc wd : W) :
  contextlib.GeneratorContextManager_init func args kwds = Ok cm0 →
  yields_once func args kwds →
  let spent := contextlib.set_gen cm0 contextlib.GenDone in
  ∃ x1 c1 w1 x2 c2 w2 w3,
    ReusableCtx_enter (mkReusableCtx cm0 None, wa) =
      (Ok x1, (mkReusableCtx cm0 (Some c1), w1))
    ∧ ReusableCtx_enter (mkReusableCtx cm0 (Some c1), wb) =
        (Ok x2, (mkReusableCtx cm0 (Some c2), w2))
    ∧ ReusableCtx_exit None (mkReusableCtx cm0 (Some c2), wc) =
        (Ok VNone, (mkReusableCtx cm0 (Some spent), w3))
    ∧ ReusableCtx_exit None (mkReusableCtx cm0 (Some spent), wd) =
        (Ok VNone, (mkReusableCtx cm0 (Some spent), wd)).
Proof.
  intros Hinit Honce spent.
  destruct (gcm_cycle _ _ _ _ Hinit Honce unit (λ _ _, ((), wa)) wa)
    as (x1 & c1 & w1 & _ & _ & _ & Hen1 & _ & _).
  destruct (gcm_cycle _ _ _ _ Hinit Honce unit (λ _ _, ((), wc)) wb)
    as (x2 & c2 & w2 & a & w2' & w3 & Hen2 & [= _ <-] & Hex2).
  exists x1, c1, w1, x2, c2, w2, w3.
  pose proof (ReusableCtx_enter_fresh func args kwds cm0 (contextlib.gen cm0))
    as Hfresh.
  rewrite set_gen_gen in Hfresh.
  split; [by rewrite (Hfresh None wa Hinit), Hen1|].
  split; [by rewrite (Hfresh (Some c1) wb Hinit), Hen2|].
  split.
  - rewrite (ReusableCtx_exit_entered _ _ c2) by done.
    change (__exit__ None (c2, wc)) with (contextlib.gcm_exit None (c2, wc)).
    by rewrite Hex2.
  - reflexivity.
Qed.

End proxy_reentry.

Lemma reusable_proxy_not_reentrant_witness :
  let cm0 := contextlib.mkGCM acquire_gen acquire [] [] in
  let spent := contextlib.mkGCM contextlib.GenDone acquire [] [] in
  contextlib.GeneratorContextManager_init acquire [] [] = Ok cm0
  ∧ yields_once acquire [] []
  ∧ ∃ x1 c1 w1 x2 c2 w2 w3,
      ReusableCtx_enter (mkReusableCtx cm0 None, 0) =
        (Ok x1, (mkReusableCtx cm0 (Some c1), w1))
      ∧ ReusableCtx_enter (mkReusableCtx cm0 (Some c1), 1) =
          (Ok x2, (mkReusableCtx cm0 (Some c2), w2))
      ∧ ReusableCtx_exit None (mkReusableCtx cm0 (Some c2), 2) =
          (Ok VNone, (mkReusableCtx cm0 (Some spent), w3))
      ∧ ReusableCtx_exit None (mkReusableCtx cm0 (Some spent), 2) =
          (Ok VNone, (mkReusableCtx cm0 (Some spent), 2)).
Proof.
  intros cm0 spent. split; [reflexivity|]. split; [exact acquire_yields_once|].
  exact (reusable_proxy_not_reentrant acquire [] [] cm0 0 1 2 2 eq_refl
           acquire_yields_once).
Defined.

(** ** Lazy decoration: what the cache does and does not do *)

Section cache_facts.

Context {U : Type}.
Implicit Types (self : @LazyDecoratorDescriptor U) (s : @traced U).
Implicit Types (instance owner : value).

(** A failure is not cached.  When a cached read finds no entry and
    raises, the descriptor has written nothing: the store is as user code
    left it and the factory has run once; and as long as the entry is
    still missing, the next read runs the factory again. *)
Theorem failed_decoration_is_retried self instance owner s0 oid d e s1 :
  _cached (base self) = true →
  instance_dict instance s0.2 = Ok (oid, d) →
  d !! __property_name (base self) = None →
  LazyDecoratorDescriptor_get self instance owner s0 = (Raise e, s1) →
  s1 = (LazyDecoratorDescriptor_decorate self
          (VMethod (_func (base self)) instance) instance owner s0).2
  ∧ factory_calls s1 = S (factory_calls s0)
  ∧ ∀ oid1 d1,
      instance_dict instance s1.2 = Ok (oid1, d1) →
      d1 !! __property_name (base self) = None →
      factory_calls (LazyDecoratorDescriptor_get self instance owner s1).2 =
        S (S (factory_calls s0)).
Proof.
  intros Hc Hd Hk.
  destruct (instance_dict_Ok _ _ _ _ Hd) as (cls & -> & _).
  assert (Hmiss : ∀ s e' s', ∀ oid' d',
    instance_dict (VObj cls oid) s.2 = Ok (oid', d') →
    d' !! __property_name (base self) = None →
    LazyDecoratorDescriptor_get self (VObj cls oid) owner s = (Raise e', s') →
    s' = (LazyDecoratorDescriptor_decorate self
            (VMethod (_func (base self)) (VObj cls oid)) (VObj cls oid)
            owner s).2).
  { intros s e' s' oid' d' Hd' Hk'.
    unfold LazyDecoratorDescriptor_get, DecoratingDescriptor_get.
    rewrite Hc, Hd', Hk'. cbn [function_get].
    destruct (LazyDecoratorDescriptor_decorate self _ _ _ s)
      as [[bound|e0] [log w]]; [|by intros [= _ <-]].
    destruct (instance_dict (VObj cls oid) w) as [[? ?]|?];
      [discriminate|by intros [= _ <-]]. }
  intros Hget. pose proof (Hmiss _ _ _ _ _ Hd Hk Hget) as Hs1.
  split; [exact Hs1|].
  assert (Hcalls : factory_calls s1 = S (factory_calls s0)).
  { rewrite Hs1. apply decorate_invokes_factory_once. }
  split; [exact Hcalls|].
  intros oid1 d1 Hd1 Hk1. rewrite <- Hcalls.
  unfold LazyDecoratorDescriptor_get, DecoratingDescriptor_get.
  rewrite Hc, Hd1, Hk1. cbn [function_get].
  pose proof (decorate_invokes_factory_once self
                (VMethod (_func (base self)) (VObj cls oid))
                (VObj cls oid) owner s1) as Hnext.
  destruct (LazyDecoratorDescriptor_decorate self _ _ _ s1)
    as [[bound|e0] [log w]]; [|exact Hnext].
  by destruct (instance_dict (VObj cls oid) w) as [[? ?]|?].
Qed.

End cache_facts.

Lemma failed_decoration_is_retried_witness :
  let self :=
    LazyDecoratorDescriptor_init 5 failing_factory (VObj "function" 1) true in
  let instance := VObj "Usage" 2 in
  let owner := VObj "type" 3 in
  let s0 : traced := ([], World {[2%N := ∅]} ()) in
  ∃ e s1,
    LazyDecoratorDescriptor_get self instance owner s0 = (Raise e, s1)
    ∧ factory_calls s1 = 1
    ∧ factory_calls (LazyDecoratorDescriptor_get self instance owner s1).2 = 2.
Proof.
  intros self instance owner s0. eexists _, _.
  epose proof (failed_decoration_is_retried self instance owner s0 2%N ∅ _ _
                 eq_refl eq_refl eq_refl eq_refl) as (_ & Hcalls & Hnext).
  split; [reflexivity|]. split; [exact Hcalls|].
  exact (Hnext 2%N ∅ eq_refl eq_refl).
Defined.

(** ** Lazy decoration: one decoration per attribute and instance *)

Section read_traces_facts.

Context {U : Type}.
Variables (desc : N → @LazyDecoratorDescriptor U) (fn : N → value).
Variables (cls : N → string) (owner : value).

Hypothesis desc_base :
  ∀ id, base (desc id) = DecoratingDescriptor_init id (fn id) true.
Hypothesis desc_factory : ∀ id, keeps_dicts (decorator_factory (desc id)).

Lemma read_step (seen univ : gset (N * N)) (t : N * N) (s : @traced U) :
  cache_state fn seen univ s →
  t ∈ univ →
  ∃ v s',
    LazyDecoratorDescriptor_get (desc t.1) (VObj (cls t.2) t.2) owner s =
      (Ok v, s')
    ∧ cache_state fn ({[t]} ∪ seen) univ s'
    ∧ factory_calls s' =
        factory_calls s + (if decide (t ∈ seen) then 0 else 1).
Proof.
  destruct t as [id oid]. cbn [fst snd]. intros Hinv Ht.
  destruct (Hinv id oid Ht) as (d & Hd & Hseen & Hnew).
  assert (Hc : _cached (base (desc id)) = true) by by rewrite desc_base.
  assert (Hdict : instance_dict (VObj (cls oid) oid) s.2 = Ok (oid, d)).
  { cbn. by rewrite Hd. }
  destruct (decide ((id, oid) ∈ seen)) as [Hin|Hout].
  - destruct (Hseen Hin) as [v Hv]. exists v, s.
    split; [|split; [|lia]].
    + apply (cached_hit _ _ _ _ oid d); [done..|]. by rewrite desc_base.
    + intros id' oid' Ht'.
      destruct (Hinv id' oid' Ht') as (d' & Hd' & Hs' & Hn').
      exists d'. split; [done|]. split.
      * intros [[= -> ->]%elem_of_singleton|?]%elem_of_union; eauto.
      * intros Hn. apply Hn'. set_solver.
  - specialize (Hnew Hout).
    destruct s as [log w]. cbn [snd] in *.
    destruct (desc_factory id (VObj (cls oid) oid) w)
      as (dcr & w1 & Hfac & Hw1 & Hdcr).
    destruct (Hdcr (VMethod (_func (base (desc id))) (VObj (cls oid) oid)) w1)
      as (v & w2 & Hrun & Hw2).
    exists v. eexists. split; [|split].
    + unfold LazyDecoratorDescriptor_get, DecoratingDescriptor_get.
      rewrite Hc. cbn [snd function_get]. rewrite Hdict.
      rewrite desc_base at 1. rewrite Hnew.
      unfold LazyDecoratorDescriptor_decorate, mbind, io_bind, call_user.
      rewrite Hfac, Hrun. cbn. rewrite Hw2, Hw1, Hd. reflexivity.
    + intros id' oid' Ht'. cbn [snd dicts].
      destruct (Hinv id' oid' Ht') as (d' & Hd' & Hs' & Hn').
      cbn [snd] in Hd'. rewrite ?desc_base.
      destruct (decide (oid' = oid)) as [->|Hoid].
      * rewrite lookup_insert_eq. eexists. split; [reflexivity|].
        assert (d' = d) as -> by congruence.
        destruct (decide (id' = id)) as [->|Hid].
        -- rewrite lookup_insert_eq. split; [by eexists|]. set_solver.
        -- rewrite lookup_insert_ne.
           2:{ intros Heq. by apply property_name_inj in Heq. }
           split.
           ++ intros [Heq%elem_of_singleton|?]%elem_of_union; [congruence|eauto].
           ++ intros Hn. apply Hn'. set_solver.
      * rewrite lookup_insert_ne by done. exists d'. split; [done|]. split.
        -- intros [Heq%elem_of_singleton|?]%elem_of_union; [congruence|eauto].
        -- intros Hn. apply Hn'. set_solver.
    + rewrite (factory_calls_snoc _ w1), (factory_calls_snoc _ w w1).
      cbn. lia.
Qed.

Lemma read_all_counts (univ : gset (N * N)) (trace : list (N * N))
    (seen : gset (N * N)) (s : @traced U) :
  cache_state fn seen univ s →
  (∀ t, t ∈ trace → t ∈ univ) →
  Forall (λ r, ∃ v, r = Ok v) (read_all desc cls owner trace s).1
  ∧ factory_calls (read_all desc cls owner trace s).2 =
      factory_calls s + size ((list_to_set trace : gset (N * N)) ∖ seen).
Proof.
  revert seen s. induction trace as [|t trace IH]; intros seen s Hinv Hsub.
  { cbn. split; [constructor|].
    replace ((∅ : gset (N * N)) ∖ seen) with (∅ : gset (N * N)) by set_solver.
    rewrite size_empty. lia. }
  destruct (read_step seen univ t s Hinv (Hsub t (list_elem_of_here _ _)))
    as (v & s' & Hget & Hinv' & Hcalls).
  cbn [read_all]. rewrite Hget.
  destruct (IH ({[t]} ∪ seen) s' Hinv') as [Hok Hrest].
  { intros t' Ht'. apply Hsub. by apply list_elem_of_further. }
  destruct (read_all desc cls owner trace s') as [rs s'']. cbn [fst snd] in *.
  split; [constructor; [by eexists|done]|].
  rewrite Hrest, Hcalls. cbn [list_to_set].
  destruct (decide (t ∈ seen)) as [Hin|Hout].
  - assert (Heq : ({[t]} ∪ list_to_set trace) ∖ seen =
                  (list_to_set trace : gset (N * N)) ∖ ({[t]} ∪ seen)).
    { apply set_eq. intros x.
      rewrite !elem_of_difference, !elem_of_union, elem_of_singleton.
      destruct (decide (x = t)) as [->|Hne]; tauto. }
    rewrite Heq. lia.
  - assert (Heq : ({[t]} ∪ list_to_set trace) ∖ seen =
                  {[t]} ∪ ((list_to_set trace : gset (N * N))
                            ∖ ({[t]} ∪ seen))).
    { apply set_eq. intros x.
      rewrite elem_of_difference, !elem_of_union, elem_of_difference,
        elem_of_union, elem_of_singleton.
      destruct (decide (x = t)) as [->|Hne]; tauto. }
    rewrite Heq.
    rewrite (size_union (C := gset (N * N)) {[t]}
               (list_to_set trace ∖ ({[t]} ∪ seen))).
    2:{ intros x Hx%elem_of_singleton [_ Hn]%elem_of_difference.
        apply Hn, elem_of_union_l, elem_of_singleton, Hx. }
    rewrite size_singleton. lia.
Qed.

(** Over any sequence of reads, through any instances and of any cached
    lazy attributes, in any order: if no dictionary holds a key yet and
    user code returns and leaves the dictionaries alone, every read
    returns and the decorator factories have run once for each distinct
    pair of attribute and instance, however often the pair is read. *)
Theorem one_decoration_per_attribute_and_instance
    (trace : list (N * N)) (s0 : @traced U) :
  cache_state fn ∅ (list_to_set trace) s0 →
  Forall (λ r, ∃ v, r = Ok v) (read_all desc cls owner trace s0).1
  ∧ factory_calls (read_all desc cls owner trace s0).2 =
      factory_calls s0 + size (list_to_set trace : gset (N * N)).
Proof.
  intros Hinv.
  destruct (read_all_counts (list_to_set trace) trace ∅ s0 Hinv) as [Hok Hn].
  { intros t Ht. by apply elem_of_list_to_set. }
  split; [exact Hok|]. rewrite Hn. do 2 f_equal. set_solver.
Qed.

End read_traces_facts.

Lemma numbering_factory_keeps_dicts : keeps_dicts numbering_factory.
Proof.
  intros instance w. eexists _, _. split; [reflexivity|]. split; [done|].
  intros method w'. by eexists _, _.
Defined.

Lemma one_decoration_per_attribute_and_instance_witness :
  let fn := λ id : N, VObj "function" id in
  let desc := λ id : N,
    LazyDecoratorDescriptor_init id numbering_factory (fn id) true in
  let trace : list (N * N) :=
    [(5, 2); (6, 2); (5, 2); (5, 3); (6, 2)]%N in
  let s0 : traced := ([], World {[2%N := ∅; 3%N := ∅]} 10%N) in
  cache_state fn ∅ (list_to_set trace) s0
  ∧ factory_calls
      (read_all desc (λ _, "Usage") (VObj "type" 0) trace s0).2 = 3.
Proof.
  intros fn desc trace s0.
  assert (Hstate : cache_state fn ∅ (list_to_set trace) s0).
  { intros id oid Hin. apply elem_of_list_to_set in Hin.
    repeat (apply elem_of_cons in Hin as [[= -> ->]|Hin]);
      try (by apply elem_of_nil in Hin);
      (exists ∅; split; [reflexivity|];
       split; [intros H; by apply elem_of_empty in H|reflexivity]). }
  split; [exact Hstate|].
  destruct (one_decoration_per_attribute_and_instance desc fn (λ _, "Usage")
              (VObj "type" 0) (λ id, eq_refl)
              (λ id, numbering_factory_keeps_dicts) trace s0 Hstate)
    as [_ Hcount].
  rewrite Hcount. reflexivity.
Defined.

(** ** [reusable_contextmanager] applied twice *)

(** Whatever [reusable_contextmanager] returns, applying it again changes
    nothing: a manager that came back as it was comes back as it is once
    more, and a proxy is not wrapped in a second proxy. *)
Theorem reusable_contextmanager_idempotent {CM : Type} `{!Recreatable CM}
    (context_manager : CM) :
  match reusable_contextmanager context_manager with
  | inl same =>
      same = context_manager ∧ reusable_contextmanager same = inl same
  | inr proxy =>
      cm proxy = None ∧ reusable_contextmanager proxy = inl proxy
  end.
Proof.
  unfold reusable_contextmanager at 1.
  destruct (hasattr_recreate_cm context_manager) eqn:Hattr; cbn.
  - by split.
  - split; [done|]. unfold reusable_contextmanager. by rewrite Hattr.
Qed.

Lemma mirror_defaults_succeeds_iff_witness :
  inspect.valid_signature bar_params
  ∧ (∀ p, p ∈ bar_params → marked_AUTO p = true →
          is_Some (defaults foo !! inspect.name p))
  ∧ ∃ wrapped, mirror_defaults foo (bar (λ l, l)) = Ok wrapped.
Proof.
  assert (Hvalid : inspect.valid_signature bar_params) by reflexivity.
  assert (Hall : ∀ p, p ∈ bar_params → marked_AUTO p = true →
                      is_Some (defaults foo !! inspect.name p)).
  { intros p Hp Hm.
    repeat (apply elem_of_cons in Hp as [->|Hp]);
      try (by apply elem_of_nil in Hp); try discriminate; by eexists. }
  split; [exact Hvalid|]. split; [exact Hall|].
  exact (proj2 (mirror_defaults_succeeds_iff foo (bar (λ l, l)) Hvalid) Hall).
Defined.

Lemma mirror_defaults_signature_well_formed_witness :
  ∃ wrapped new_signature,
    mirror_defaults foo (bar (λ l, l)) = Ok wrapped
    ∧ fn_signature (obj wrapped) = Some new_signature
    ∧ inspect.valid_signature new_signature
    ∧ inspect.name <$> new_signature = ["a"; "b"; "c"].
Proof.
  eexists.
  epose proof (mirror_defaults_signature_well_formed foo (bar (λ l, l)) _
                 eq_refl) as (new_signature & Hattr & Hvalid & Hnames & _).
  exists new_signature. split; [reflexivity|]. split; [exact Hattr|].
  split; [exact Hvalid|exact Hnames].
Defined.
